(** * Retranslator: translation catalogs and retranslation callbacks

    A shallow embedding of [src/libcalamares/utils/Retranslator.cpp]
    (Calamares).  The file has two halves:

    - the translator registry: [mungeLocaleName], the three
      [TranslationLoader] variants with their [tryLoad], the swap done by
      [loadSingletonTranslator], and [installTranslator] /
      [translatorLocaleName] over the three static slots;
    - the retranslation hub: [retranslatorFor], [attachRetranslator] and
      [eventFilter] over the QObject parent/child graph.

    Qt itself is the host.  What a [QTranslator::load] or a [QDir::exists]
    answers is not decided by this code, so it is a field of a [Host]
    record the definitions are parameterised by.  Every call into the host
    that the outside can observe (allocation, load attempts, debug output,
    install and remove on the application's translator list, callback
    invocations, signal emissions) is appended to the [trace] of the world. *)

From Stdlib Require Import ZArith Ascii.
From Stdlib Require String.
From stdpp Require Import base option list gmap strings.

(** ** QString operations used by the source *)

Module QString.

(** [QString::replace(before, after)] where both arguments are strings of
    one character, as in [localeName.replace( "-", "_" )]: every
    occurrence is replaced. *)
Fixpoint replace (before after : ascii) (s : string) : string :=
  match s with
  | EmptyString => EmptyString
  | String c rest =>
      String (if Ascii.eqb c before then after else c)
             (replace before after rest)
  end.

Definition isEmpty (s : string) : bool := String.eqb s "".

Definition size (s : string) : Z := Z.of_nat (String.length s).

(** Index of the last occurrence of [c] at or after position [i] counted
    from the head of [s], or [-1]. *)
Fixpoint lastIndexOf_from (i : Z) (c : ascii) (s : string) : Z :=
  match s with
  | EmptyString => (-1)%Z
  | String d rest =>
      let later := lastIndexOf_from (i + 1) c rest in
      if (0 <=? later)%Z then later
      else if Ascii.eqb d c then i else (-1)%Z
  end.

(** [QString::lastIndexOf(QChar)]: [-1] when the character is absent. *)
Definition lastIndexOf (c : ascii) (s : string) : Z :=
  lastIndexOf_from 0 c s.

(** [QString::truncate(pos)]: nothing happens beyond the end; a negative
    position is the same as zero. *)
Definition truncate (pos : Z) (s : string) : string :=
  if (pos <? size s)%Z
  then String.substring 0 (Z.to_nat (Z.max 0 pos)) s
  else s.

(** [QString::remove(pos, len)]. *)
Definition remove (pos len : Z) (s : string) : string :=
  let pos' := if (pos <? 0)%Z then (pos + size s)%Z else pos in
  if ((pos' <? 0) || (size s <=? pos'))%Z then s
  else if (size s - pos' <=? len)%Z
       then String.substring 0 (Z.to_nat pos') s
  else if (0 <? len)%Z
       then String.substring 0 (Z.to_nat pos') s
            +:+ String.substring (Z.to_nat (pos' + len))
                                (Z.to_nat (size s - pos' - len)) s
  else s.

(** Does [s] contain the character [c]? *)
Fixpoint contains (c : ascii) (s : string) : bool :=
  match s with
  | EmptyString => false
  | String d rest => Ascii.eqb d c || contains c rest
  end.

End QString.

(** ** QLocale *)

(** The members of [QLocale::Language] and [QLocale::Script] the source
    names, a few neighbours, and a catch-all for the rest of the enum. *)
Inductive Language : Type :=
  | AnyLanguage | C | English | French | German | Serbian
  | OtherLanguage (code : N).

Inductive Script : Type :=
  | AnyScript | CyrillicScript | LatinScript
  | OtherScript (code : N).

#[global] Instance Language_eq_dec : EqDecision Language.
Proof. solve_decision. Defined.
#[global] Instance Script_eq_dec : EqDecision Script.
Proof. solve_decision. Defined.

(** A locale is opaque to this code except for three accessors. *)
Record QLocale : Type := mkQLocale {
  name : string;
  language : Language;
  script : Script
}.

#[global] Instance QLocale_eq_dec : EqDecision QLocale.
Proof. solve_decision. Defined.

(** ** TranslationLoader::mungeLocaleName *)

Definition is_serbian_latin (locale : QLocale) : bool :=
  bool_decide (language locale = Serbian)
  && bool_decide (script locale = LatinScript).

Definition mungeLocaleName (locale : QLocale) : string :=
  let localeName := name locale in
  let localeName := QString.replace "-" "_" localeName in
  let localeName := if String.eqb localeName "C" then "en" else localeName in
  (* Special case of sr@latin *)
  let localeName := if is_serbian_latin locale then "sr@latin" else localeName in
  localeName.

(** ** The host *)

(** Pointers to [QTranslator]s and to [QObject]s. *)
Abbreviation TrId := nat.
Abbreviation ObjId := nat.

(** What a translator holds after a load. *)
Inductive Catalog : Type :=
  | EmptyCatalog
  | FileCatalog (filename : string)
  | LocaleCatalog (locale : QLocale) (filename prefix directory : string).

Record QTranslator : Type := mkQTranslator { contents : Catalog }.

(** Answers of the surrounding system.  They are taken to be stable while
    the functions of this file run: asking twice gives the same answer. *)
Record Host : Type := mkHost {
  (** [QDir::separator()] *)
  separator : ascii;
  (** [QDir( path ).exists()] *)
  dir_exists : string → bool;
  (** [QDir( path ).absolutePath()] *)
  dir_absolutePath : string → string;
  (** does [QTranslator::load( filename )] find a catalog? *)
  load_file : string → bool;
  (** does [QTranslator::load( locale, filename, prefix, directory )]? *)
  load_locale : QLocale → string → string → string → bool
}.

(** Retranslation callbacks, [std::function< void( void ) >].  A callback
    is known by its identity; running it is an observable event.  What a
    callback does to the user interface is outside this file: it is taken
    to return normally and to leave the objects of the hub alone. *)
Definition Callback : Type := string.

Inductive QEventType : Type :=
  | LanguageChange | LocaleChange | Show | Hide | Close
  | OtherEvent (code : N).

#[global] Instance QEventType_eq_dec : EqDecision QEventType.
Proof. solve_decision. Defined.

Inductive Event : Type :=
  | EvNew (t : TrId)                                (* new QTranslator() *)
  | EvLoad (t : TrId) (filename : string) (ok : bool)
  | EvLoadLocale (t : TrId) (locale : QLocale)
                 (filename prefix directory : string) (ok : bool)
  | EvDirExists (path : string) (ok : bool)
  | EvDebug (text arg : string)                     (* cDebug() << ... *)
  | EvRemove (t : TrId)          (* QCoreApplication::removeTranslator *)
  | EvDelete (t : TrId)          (* delete *)
  | EvInstall (t : TrId)         (* QCoreApplication::installTranslator *)
  | EvCall (f : Callback)        (* func() *)
  | EvEmit (r : ObjId).          (* emit languageChange() *)

(** ** QObject graph *)

Inductive ObjectKind : Type :=
  | PlainQObject
  | RetranslatorObject (m_retranslateFuncList : list Callback).

Record QObject : Type := mkQObject {
  parent : option ObjId;
  children : list ObjId;
  eventFilters : list ObjId;
  kind : ObjectKind
}.

(** ** The world: heap, application state and the statics of the file *)

Record World : Type := mkWorld {
  translators : gmap nat QTranslator;      (* live QTranslator objects *)
  app_translators : list TrId;             (* QCoreApplication's list *)
  objects : gmap nat QObject;              (* live QObjects *)
  s_brandingTranslator : option TrId;
  s_translator : option TrId;
  s_tztranslator : option TrId;
  s_translatorLocaleName : string;
  trace : list Event
}.

Definition set_translators (f : gmap nat QTranslator → gmap nat QTranslator)
    (w : World) : World :=
  mkWorld (f (translators w)) (app_translators w) (objects w)
          (s_brandingTranslator w) (s_translator w) (s_tztranslator w)
          (s_translatorLocaleName w) (trace w).

Definition set_app_translators (f : list TrId → list TrId) (w : World) : World :=
  mkWorld (translators w) (f (app_translators w)) (objects w)
          (s_brandingTranslator w) (s_translator w) (s_tztranslator w)
          (s_translatorLocaleName w) (trace w).

Definition set_objects (f : gmap nat QObject → gmap nat QObject)
    (w : World) : World :=
  mkWorld (translators w) (app_translators w) (f (objects w))
          (s_brandingTranslator w) (s_translator w) (s_tztranslator w)
          (s_translatorLocaleName w) (trace w).

Definition set_s_translatorLocaleName (s : string) (w : World) : World :=
  mkWorld (translators w) (app_translators w) (objects w)
          (s_brandingTranslator w) (s_translator w) (s_tztranslator w)
          s (trace w).

Definition emit (e : Event) (w : World) : World :=
  mkWorld (translators w) (app_translators w) (objects w)
          (s_brandingTranslator w) (s_translator w) (s_tztranslator w)
          (s_translatorLocaleName w) (trace w ++ [e]).

(** The three statics a [QTranslator*&] of the source can refer to. *)
Inductive Slot : Type := BrandingSlot | TzSlot | AppSlot.

#[global] Instance Slot_eq_dec : EqDecision Slot.
Proof. solve_decision. Defined.

Definition get_slot (s : Slot) (w : World) : option TrId :=
  match s with
  | BrandingSlot => s_brandingTranslator w
  | TzSlot => s_tztranslator w
  | AppSlot => s_translator w
  end.

Definition set_slot (s : Slot) (p : option TrId) (w : World) : World :=
  match s with
  | BrandingSlot =>
      mkWorld (translators w) (app_translators w) (objects w)
              p (s_translator w) (s_tztranslator w)
              (s_translatorLocaleName w) (trace w)
  | TzSlot =>
      mkWorld (translators w) (app_translators w) (objects w)
              (s_brandingTranslator w) (s_translator w) p
              (s_translatorLocaleName w) (trace w)
  | AppSlot =>
      mkWorld (translators w) (app_translators w) (objects w)
              (s_brandingTranslator w) p (s_tztranslator w)
              (s_translatorLocaleName w) (trace w)
  end.

(** The state of the process before any function of this file ran: the
    statics are zero-initialised; the host may already own translators and
    objects. *)
Definition initial_world (host_translators : gmap nat QTranslator)
    (host_stack : list TrId) (host_objects : gmap nat QObject) : World :=
  mkWorld host_translators host_stack host_objects None None None "" [].

(** ** A state monad for the code that cannot fail *)

Definition State (A : Type) : Type := World → A * World.

Definition ret {A} (a : A) : State A := λ w, (a, w).

Definition bind {A B} (m : State A) (k : A → State B) : State B :=
  λ w, let (a, w') := m w in k a w'.

Declare Scope state_scope.
Delimit Scope state_scope with state.
Notation "'let*' x := m 'in' k" := (bind m (λ x, k))
  (at level 10, x name, m at level 100, k at level 200) : state_scope.

Definition modify (f : World → World) : State unit := λ w, (tt, f w).
Definition gets {A} (f : World → A) : State A := λ w, (f w, w).

Definition exec {A} (m : State A) (w : World) : World := snd (m w).
Definition eval {A} (m : State A) (w : World) : A := fst (m w).

Open Scope state_scope.

(** ** Host primitives *)

Section Registry.

Variable h : Host.

(** [new QTranslator()]: a pointer that is not the address of any live
    translator; the object starts empty. *)
Definition new_QTranslator : State TrId :=
  λ w, let t := fresh (dom (translators w)) in
       (t, emit (EvNew t)
             (set_translators (insert t (mkQTranslator EmptyCatalog)) w)).

(** [translator->load( filename )].  A load that fails leaves the
    translator empty. *)
Definition QTranslator_load (translator : TrId) (filename : string)
    : State bool :=
  λ w, let ok := load_file h filename in
       let c := if ok then FileCatalog filename else EmptyCatalog in
       (ok, emit (EvLoad translator filename ok)
              (set_translators (alter (λ _, mkQTranslator c) translator) w)).

(** [translator->load( locale, filename, prefix, directory )]. *)
Definition QTranslator_load_locale (translator : TrId) (locale : QLocale)
    (filename prefix directory : string) : State bool :=
  λ w, let ok := load_locale h locale filename prefix directory in
       let c := if ok then LocaleCatalog locale filename prefix directory
                else EmptyCatalog in
       (ok, emit (EvLoadLocale translator locale filename prefix directory ok)
              (set_translators (alter (λ _, mkQTranslator c) translator) w)).

(** [QDir( path ).exists()]. *)
Definition QDir_exists (path : string) : State bool :=
  λ w, let ok := dir_exists h path in (ok, emit (EvDirExists path ok) w).

(** [cDebug() << Logger::SubEntry << text << arg]. *)
Definition cDebug (text arg : string) : State unit :=
  modify (emit (EvDebug text arg)).

(** [QCoreApplication::removeTranslator]: all occurrences leave the list. *)
Definition QCoreApplication_removeTranslator (t : TrId) : State unit :=
  modify (λ w, emit (EvRemove t)
                 (set_app_translators (filter (λ x, x ≠ t)) w)).

(** [QCoreApplication::installTranslator]: the newest translator goes to
    the head of the list. *)
Definition QCoreApplication_installTranslator (t : TrId) : State unit :=
  modify (λ w, emit (EvInstall t) (set_app_translators (cons t) w)).

(** [delete p]: the object is no longer live.  (The translator was taken
    off the application's list by the caller just before.) *)
Definition delete_QTranslator (t : TrId) : State unit :=
  modify (λ w, emit (EvDelete t) (set_translators (delete t) w)).

(** ** The loaders *)

(** The base class: the locale and its munged name, computed by the
    constructor. *)
Record TranslationLoader : Type := mkTranslationLoader {
  m_locale : QLocale;
  m_localeName : string
}.

Definition TranslationLoader_new (locale : QLocale) : TranslationLoader :=
  {| m_locale := locale; m_localeName := mungeLocaleName locale |}.

(** The three subclasses; [tryLoad] is dispatched on the variant. *)
Inductive Loader : Type :=
  | BrandingLoader (base : TranslationLoader) (m_prefix : string)
  | CalamaresLoader (base : TranslationLoader)
  | TZLoader (base : TranslationLoader).

Definition BrandingLoader_new (locale : QLocale) (prefix : string) : Loader :=
  BrandingLoader (TranslationLoader_new locale) prefix.
Definition CalamaresLoader_new (locale : QLocale) : Loader :=
  CalamaresLoader (TranslationLoader_new locale).
Definition TZLoader_new (locale : QLocale) : Loader :=
  TZLoader (TranslationLoader_new locale).

Definition loader_base (l : Loader) : TranslationLoader :=
  match l with
  | BrandingLoader b _ | CalamaresLoader b | TZLoader b => b
  end.

Definition BrandingLoader_tryLoad (this : TranslationLoader)
    (m_prefix : string) (translator : TrId) : State bool :=
  if QString.isEmpty m_prefix then ret false
  else
    let brandingTranslationsDirPath :=
      QString.truncate (QString.lastIndexOf (separator h) m_prefix) m_prefix in
    let* dir_ok := QDir_exists brandingTranslationsDirPath in
    if dir_ok then
      let filenameBase :=
        QString.remove 0 (QString.lastIndexOf (separator h) m_prefix + 1)
                       m_prefix in
      let* ok := QTranslator_load_locale translator (m_locale this)
                   filenameBase "_"
                   (dir_absolutePath h brandingTranslationsDirPath) in
      if ok then
        let* _ := cDebug "Branding using locale:" (m_localeName this) in
        ret true
      else
        let* _ := cDebug "Branding using default, system locale not found:"
                   (m_localeName this) in
        (* TODO: this loads something completely different *)
        QTranslator_load translator (m_prefix +:+ "en")
    else ret false.

Definition CalamaresLoader_tryLoad (this : TranslationLoader)
    (translator : TrId) : State bool :=
  let* ok := QTranslator_load translator
               (":/lang/calamares_" +:+ m_localeName this) in
  if ok then
    let* _ := cDebug "Calamares using locale:" (m_localeName this) in
    ret true
  else
    let* _ := cDebug "Calamares using default, system locale not found:"
               (m_localeName this) in
    QTranslator_load translator ":/lang/calamares_en".

Definition TZLoader_tryLoad (this : TranslationLoader)
    (translator : TrId) : State bool :=
  let* ok := QTranslator_load translator
               (":/lang/tz_" +:+ m_localeName this) in
  if ok then
    let* _ := cDebug "Calamares Timezones using locale:" (m_localeName this) in
    ret true
  else
    let* _ := cDebug "Calamares Timezones using default, system locale not found:"
               (m_localeName this) in
    QTranslator_load translator ":/lang/tz_en".

Definition tryLoad (loader : Loader) (translator : TrId) : State bool :=
  match loader with
  | BrandingLoader this m_prefix => BrandingLoader_tryLoad this m_prefix translator
  | CalamaresLoader this => CalamaresLoader_tryLoad this translator
  | TZLoader this => TZLoader_tryLoad this translator
  end.

(** ** loadSingletonTranslator and installTranslator *)

Definition loadSingletonTranslator (loader : Loader) (translator_p : Slot)
    : State unit :=
  let* translator := new_QTranslator in
  let* _ := tryLoad loader translator in
  let* old := gets (get_slot translator_p) in
  let* _ := match old with
            | Some p =>
                let* _ := QCoreApplication_removeTranslator p in
                delete_QTranslator p
            | None => ret tt
            end in
  let* _ := QCoreApplication_installTranslator translator in
  modify (set_slot translator_p (Some translator)).

(** [parent] is the third parameter of the source; a null pointer is
    [None].  [std::move( l )] is only a cast and [loadSingletonTranslator]
    binds its loader by reference, so [l.m_localeName] read on the last
    line is still the name the constructor computed. *)
Definition installTranslator (locale : QLocale)
    (brandingTranslationsPrefix : string) (parent : option ObjId)
    : State unit :=
  let* _ := loadSingletonTranslator
        (BrandingLoader_new locale brandingTranslationsPrefix) BrandingSlot in
  let* _ := loadSingletonTranslator (TZLoader_new locale) TzSlot in
  let l := CalamaresLoader_new locale in  (* because we want the extracted localeName *)
  let* _ := loadSingletonTranslator l AppSlot in
  modify (set_s_translatorLocaleName (m_localeName (loader_base l))).

Definition translatorLocaleName : State string :=
  gets s_translatorLocaleName.

End Registry.

(** ** The retranslation hub *)

(** The hub dereferences pointers handed in by the caller.  A call on a
    pointer that is not a live object of the right class has no defined
    behaviour in the source; the functions below return [None] there. *)

(** [qobject_cast< Retranslator* >( child )] *)
Definition qobject_cast_Retranslator (w : World) (child : ObjId)
    : option ObjId :=
  match objects w !! child with
  | Some o =>
      match kind o with
      | RetranslatorObject _ => Some child
      | PlainQObject => None
      end
  | None => None
  end.

(** The [for] loop of [retranslatorFor] over [parent->children()]. *)
Fixpoint first_Retranslator (w : World) (cs : list ObjId) : option ObjId :=
  match cs with
  | [] => None
  | child :: rest =>
      match qobject_cast_Retranslator w child with
      | Some r => Some r
      | None => first_Retranslator w rest
      end
  end.

Definition add_child (c : ObjId) (o : QObject) : QObject :=
  mkQObject (parent o) (children o ++ [c]) (eventFilters o) (kind o).

(** [QObject::installEventFilter]: the filter moves to the head of the
    list. *)
Definition installEventFilter (f : ObjId) (o : QObject) : QObject :=
  mkQObject (parent o) (children o)
            (f :: filter (λ x, x ≠ f) (eventFilters o)) (kind o).

(** [new Retranslator( parent )]: the constructor [QObject( parent )]
    makes the new object the last child of [parent], and the body installs
    it as an event filter on [parent]. *)
Definition Retranslator_new (parent_ : ObjId) (w : World) : ObjId * World :=
  let this := fresh (dom (objects w)) in
  let w := set_objects
             (insert this (mkQObject (Some parent_) [] [] (RetranslatorObject [])))
             w in
  let w := set_objects (alter (add_child this) parent_) w in
  let w := set_objects (alter (installEventFilter this) parent_) w in
  (this, w).

Definition retranslatorFor (parent_ : ObjId) (w : World)
    : option (ObjId * World) :=
  match objects w !! parent_ with
  | None => None
  | Some p =>
      match first_Retranslator w (children p) with
      | Some r => Some (r, w)
      | None => Some (Retranslator_new parent_ w)
      end
  end.

(** [m_retranslateFuncList.append( retranslateFunc )] *)
Definition append_func (f : Callback) (o : QObject) : QObject :=
  match kind o with
  | RetranslatorObject fs =>
      mkQObject (parent o) (children o) (eventFilters o)
                (RetranslatorObject (fs ++ [f]))
  | PlainQObject => o
  end.

Definition attachRetranslator (parent_ : ObjId) (retranslateFunc : Callback)
    (w : World) : option World :=
  match retranslatorFor parent_ w with
  | None => None
  | Some (r, w) =>
      let w := set_objects (alter (append_func retranslateFunc) r) w in
      Some (emit (EvCall retranslateFunc) w)
  end.

(** [QObject::eventFilter], the base implementation: the event is not
    filtered out. *)
Definition QObject_eventFilter (obj : ObjId) (e : QEventType) : bool := false.

(** The [foreach] loop of [eventFilter]. *)
Definition call_all (fs : list Callback) (w : World) : World :=
  foldl (λ w func, emit (EvCall func) w) w fs.

Definition eventFilter (this obj : ObjId) (e : QEventType) (w : World)
    : option (bool * World) :=
  match objects w !! this with
  | Some o =>
      match kind o with
      | RetranslatorObject m_retranslateFuncList =>
          let w :=
            if bool_decide (Some obj = parent o) then
              if bool_decide (e = LanguageChange) then
                emit (EvEmit this) (call_all m_retranslateFuncList w)
              else w
            else w in
          (* pass the event on to the base *)
          Some (QObject_eventFilter obj e, w)
      | PlainQObject => None
      end
  | None => None
  end.

(** The callback list of a Retranslator, and of the Retranslator of a
    parent. *)
Definition funcs_of (w : World) (r : ObjId) : list Callback :=
  match objects w !! r with
  | Some o =>
      match kind o with
      | RetranslatorObject fs => fs
      | PlainQObject => []
      end
  | None => []
  end.

(** ** Concrete inputs used below *)

Definition en_US : QLocale := mkQLocale "en-US" English LatinScript.
Definition c_locale : QLocale := mkQLocale "C" C AnyScript.
Definition sr_Latn : QLocale := mkQLocale "sr-Latn-RS" Serbian LatinScript.
Definition sr_Cyrl : QLocale := mkQLocale "sr" Serbian CyrillicScript.
Definition fr : QLocale := mkQLocale "fr" French LatinScript.
Definition zz_ZZ : QLocale := mkQLocale "zz-ZZ" (OtherLanguage 999) AnyScript.

(** A host with no catalogs and no directories at all. *)
Definition bare_host : Host :=
  mkHost "/" (λ _, false) (λ p, p) (λ _, false) (λ _ _ _ _, false).

(** A host that ships only the English catalogs. *)
Definition en_only_host : Host :=
  mkHost "/" (λ _, true) (λ p, p)
         (λ f, String.eqb f ":/lang/calamares_en" || String.eqb f ":/lang/tz_en")
         (λ _ _ _ _, false).

(** A widget with no children. *)
Definition widget_world : World :=
  initial_world ∅ [] {[ 0 := mkQObject None [] [] PlainQObject ]}.

(** Two widgets with no children. *)
Definition two_widget_world : World :=
  initial_world ∅ []
    {[ 0 := mkQObject None [] [] PlainQObject;
       1 := mkQObject None [] [] PlainQObject ]}.

(** ** Notions used to state the properties *)

#[global] Instance Event_eq_dec : EqDecision Event.
Proof. solve_decision. Defined.

(** Events of a [tryLoad]: load attempts, directory tests, debug output. *)
Definition is_load_event (e : Event) : bool :=
  match e with
  | EvLoad _ _ _ | EvLoadLocale _ _ _ _ _ _ | EvDirExists _ _ | EvDebug _ _ => true
  | _ => false
  end.

(** The file names handed to [QTranslator::load( filename )], in order. *)
Definition load_attempts (evs : list Event) : list string :=
  omap (λ e, match e with EvLoad _ f _ => Some f | _ => None end) evs.

(** [load_step t w w']: [w'] comes from [w] by loads into the translator
    [t] only.  Nothing but the contents of [t] and the trace changes. *)
Record load_step (t : TrId) (w w' : World) : Prop := mkLoadStep {
  ls_stack : app_translators w' = app_translators w;
  ls_objects : objects w' = objects w;
  ls_slots : ∀ s, get_slot s w' = get_slot s w;
  ls_name : s_translatorLocaleName w' = s_translatorLocaleName w;
  ls_dom : dom (translators w') = dom (translators w);
  ls_other : ∀ x, x ≠ t → translators w' !! x = translators w !! x;
  ls_trace : ∃ evs, trace w' = trace w ++ evs
                    ∧ Forall (λ e, is_load_event e = true) evs
}.

(** The calls on the application's translator list, replayed over a list. *)
Fixpoint replay (evs : list Event) (stack : list TrId) : list TrId :=
  match evs with
  | [] => stack
  | EvInstall t :: evs => replay evs (t :: stack)
  | EvRemove t :: evs => replay evs (filter (λ x, x ≠ t) stack)
  | _ :: evs => replay evs stack
  end.

(** The translators on the application's list after the events [p] that
    were allocated by [loadSingletonTranslator] during [p]. *)
Definition own_installed (p : list Event) (host_stack : list TrId) : list TrId :=
  filter (λ t, EvNew t ∈ p) (replay p host_stack).

(** What the swap does to the old occupant of a slot. *)
Definition swap_events (old : option TrId) : list Event :=
  match old with
  | Some p => [EvRemove p; EvDelete p]
  | None => []
  end.

Definition without (old : option TrId) (stack : list TrId) : list TrId :=
  match old with
  | Some p => filter (λ x, x ≠ p) stack
  | None => stack
  end.

(** The effect of one [loadSingletonTranslator], field by field. *)
Record swapped (slot : Slot) (w w' : World) : Prop := mkSwapped {
  sw_slots : ∀ s, get_slot s w' =
                  if decide (s = slot) then Some (fresh (dom (translators w)))
                  else get_slot s w;
  sw_stack : app_translators w' =
             fresh (dom (translators w))
               :: without (get_slot slot w) (app_translators w);
  sw_new : fresh (dom (translators w)) ∈ dom (translators w');
  sw_other : ∀ x, x ≠ fresh (dom (translators w)) →
                  translators w' !! x =
                  if decide (get_slot slot w = Some x) then None
                  else translators w !! x;
  sw_trace : ∃ evs, Forall (λ e, is_load_event e = true) evs
                    ∧ trace w' = trace w
                                 ++ [EvNew (fresh (dom (translators w)))] ++ evs
                                 ++ swap_events (get_slot slot w)
                                 ++ [EvInstall (fresh (dom (translators w)))];
  sw_objects : objects w' = objects w;
  sw_name : s_translatorLocaleName w' = s_translatorLocaleName w
}.

(** [host_stack] is the application's translator list before this file's
    code ran: translators the host installed itself. *)
Record registry_inv (host_stack : list TrId) (w : World) : Prop := mkRegistryInv {
  (** a slot points to a live translator *)
  ri_live : ∀ s t, get_slot s w = Some t → t ∈ dom (translators w);
  (** no translator is in two slots *)
  ri_inj : ∀ s1 s2 t, get_slot s1 w = Some t → get_slot s2 w = Some t → s1 = s2;
  (** the list is the catalogs of the slots, once each, over the host's *)
  ri_stack : ∃ l, app_translators w = l ++ host_stack ∧ NoDup l
                  ∧ ∀ t, t ∈ l ↔ ∃ s, get_slot s w = Some t;
  ri_host_live : ∀ t, t ∈ host_stack → t ∈ dom (translators w);
  ri_host_slots : ∀ t s, t ∈ host_stack → get_slot s w ≠ Some t;
  ri_host_new : ∀ t, t ∈ host_stack → EvNew t ∉ trace w;
  (** the trace accounts for the list *)
  ri_replay : replay (trace w) host_stack = app_translators w;
  (** at every moment so far at most three own catalogs were installed *)
  ri_bound : ∀ p, p `prefix_of` trace w → length (own_installed p host_stack) ≤ 3
}.

Definition is_stack_event (e : Event) : bool :=
  match e with
  | EvInstall _ | EvRemove _ => true
  | _ => false
  end.

Definition slot_values (w : World) : list TrId :=
  omap (λ s, get_slot s w) [BrandingSlot; TzSlot; AppSlot].

(** Any number of [installTranslator] calls, one after the other. *)
Fixpoint install_all (h : Host) (calls : list (QLocale * string * option ObjId))
    : State unit :=
  match calls with
  | [] => ret tt
  | (locale, prefix, parent_) :: rest =>
      let* _ := installTranslator h locale prefix parent_ in
      install_all h rest
  end.

(** Calls into the hub. *)
Inductive HubCall : Type :=
  | CallRetranslatorFor (parent_ : ObjId)
  | CallAttach (parent_ : ObjId) (retranslateFunc : Callback)
  | CallEventFilter (this obj : ObjId) (e : QEventType).

Definition hub_call (c : HubCall) (w : World) : option World :=
  match c with
  | CallRetranslatorFor parent_ => snd <$> retranslatorFor parent_ w
  | CallAttach parent_ f => attachRetranslator parent_ f w
  | CallEventFilter this obj e => snd <$> eventFilter this obj e w
  end.

Fixpoint hub_calls (cs : list HubCall) (w : World) : option World :=
  match cs with
  | [] => Some w
  | c :: cs =>
      match hub_call c w with
      | Some w' => hub_calls cs w'
      | None => None
      end
  end.

(** The Retranslators among a list of children, in order. *)
Definition retranslators_in (w : World) (cs : list ObjId) : list ObjId :=
  omap (qobject_cast_Retranslator w) cs.

(** The object graph as Qt keeps it: a child is a live object that names
    its parent; and, what [retranslatorFor] maintains, no object has two
    Retranslators among its children. *)
Record hub_inv (w : World) : Prop := mkHubInv {
  hi_children : ∀ q o c, objects w !! q = Some o → c ∈ children o →
                         ∃ co, objects w !! c = Some co ∧ parent co = Some q;
  hi_one : ∀ q o, objects w !! q = Some o →
                  length (retranslators_in w (children o)) ≤ 1
}.

(** Attach the callbacks of a list to one parent, in order. *)
Fixpoint attach_all (parent_ : ObjId) (fs : list Callback) (w : World)
    : option World :=
  match fs with
  | [] => Some w
  | f :: fs =>
      match attachRetranslator parent_ f w with
      | Some w' => attach_all parent_ fs w'
      | None => None
      end
  end.

(** * Properties *)

(** ** Locale-name normalisation *)

Section MungeFacts.

Lemma replace_get (b a : ascii) (s : string) (i : nat) :
  String.get i (QString.replace b a s)
  = (λ c : ascii, if Ascii.eqb c b then a else c) <$> String.get i s.
Proof.
  revert i; induction s as [|c s IH]; intros [|i]; simpl; auto.
Qed.

Lemma replace_length (b a : ascii) (s : string) :
  String.length (QString.replace b a s) = String.length s.
Proof. induction s; simpl; congruence. Qed.

Lemma replace_removes (b a : ascii) (s : string) :
  a ≠ b → QString.contains b (QString.replace b a s) = false.
Proof.
  intros Hab; induction s as [|c s IH]; simpl; [done|].
  rewrite IH, orb_false_r.
  destruct (Ascii.eqb_spec c b) as [->|Hc]; apply Ascii.eqb_neq; done.
Qed.

Lemma replace_absent (b a : ascii) (s : string) :
  QString.contains b s = false → QString.replace b a s = s.
Proof.
  induction s as [|c s IH]; simpl; [done|].
  intros [Hc Hs]%orb_false_elim. rewrite Hc, IH; done.
Qed.

(** The placeholder name has no dash, so the test against it can be done
    before or after the rewriting. *)
Lemma replace_dash_is_C (s : string) :
  QString.replace "-" "_" s = "C" ↔ s = "C".
Proof.
  split; [|intros ->; reflexivity].
  destruct s as [|c [|d s]]; simpl; try discriminate.
  destruct (Ascii.eqb_spec c "-") as [->|_]; [discriminate|done].
Qed.

Lemma is_serbian_latin_spec (locale : QLocale) :
  is_serbian_latin locale = true
  ↔ language locale = Serbian ∧ script locale = LatinScript.
Proof.
  unfold is_serbian_latin.
  rewrite andb_true_iff, !bool_decide_eq_true. done.
Qed.

Lemma munge_not_serbian_latin (locale : QLocale) :
  ¬ (language locale = Serbian ∧ script locale = LatinScript) →
  mungeLocaleName locale
  = if String.eqb (name locale) "C" then "en"
    else QString.replace "-" "_" (name locale).
Proof.
  intros Hn. unfold mungeLocaleName.
  destruct (is_serbian_latin locale) eqn:Hsl.
  { apply is_serbian_latin_spec in Hsl. done. }
  destruct (String.eqb_spec (QString.replace "-" "_" (name locale)) "C")
    as [HC|HC]; destruct (String.eqb_spec (name locale) "C") as [HC'|HC'];
    try done.
  - exfalso. apply HC', replace_dash_is_C, HC.
  - exfalso. apply HC. rewrite HC'. reflexivity.
Qed.

End MungeFacts.

(** C2.  [mungeLocaleName] follows the normalisation rules: a Serbian
    locale in Latin script always gives "sr@latin"; otherwise the name "C"
    gives "en"; otherwise the result is the name with every dash turned
    into an underscore (same length, equal at every position that is not a
    dash, free of dashes), so a name without a dash comes back unchanged.
    In particular "en-US" gives "en_US", "C" gives "en", Serbian in Latin
    script gives "sr@latin" and "fr" gives "fr". *)
Theorem mungeLocaleName_rules :
  (∀ locale, language locale = Serbian → script locale = LatinScript →
     mungeLocaleName locale = "sr@latin")
  ∧ (∀ locale, ¬ (language locale = Serbian ∧ script locale = LatinScript) →
       name locale = "C" → mungeLocaleName locale = "en")
  ∧ (∀ locale, ¬ (language locale = Serbian ∧ script locale = LatinScript) →
       name locale ≠ "C" →
       mungeLocaleName locale = QString.replace "-" "_" (name locale)
       ∧ String.length (mungeLocaleName locale) = String.length (name locale)
       ∧ (∀ i, String.get i (mungeLocaleName locale)
               = (λ c : ascii, if Ascii.eqb c "-" then "_"%char else c)
                   <$> String.get i (name locale))
       ∧ QString.contains "-" (mungeLocaleName locale) = false)
  ∧ (∀ locale, ¬ (language locale = Serbian ∧ script locale = LatinScript) →
       name locale ≠ "C" → QString.contains "-" (name locale) = false →
       mungeLocaleName locale = name locale)
  ∧ mungeLocaleName en_US = "en_US"
  ∧ mungeLocaleName c_locale = "en"
  ∧ mungeLocaleName sr_Latn = "sr@latin"
  ∧ mungeLocaleName fr = "fr".
Proof.
  split_and!; try reflexivity.
  - intros locale Hl Hs. unfold mungeLocaleName.
    replace (is_serbian_latin locale) with true; [done|].
    symmetry. apply is_serbian_latin_spec. done.
  - intros locale Hn HC. rewrite munge_not_serbian_latin by done.
    rewrite HC. reflexivity.
  - intros locale Hn HC. rewrite munge_not_serbian_latin by done.
    destruct (String.eqb_spec (name locale) "C") as [|_]; [done|].
    split_and!; [done|apply replace_length|intros i; apply replace_get|].
    apply replace_removes. done.
  - intros locale Hn HC Hdash. rewrite munge_not_serbian_latin by done.
    destruct (String.eqb_spec (name locale) "C") as [|_]; [done|].
    apply replace_absent. done.
Qed.

Lemma mungeLocaleName_rules_witness :
  mungeLocaleName (mkQLocale "sr_RS" Serbian LatinScript) = "sr@latin"
  ∧ mungeLocaleName (mkQLocale "C" AnyLanguage AnyScript) = "en"
  ∧ mungeLocaleName zz_ZZ = QString.replace "-" "_" "zz-ZZ"
  ∧ mungeLocaleName sr_Cyrl = "sr".
Proof.
  destruct mungeLocaleName_rules as (H1 & H2 & H3 & H4 & _).
  split_and!.
  - apply (H1 (mkQLocale "sr_RS" Serbian LatinScript)); reflexivity.
  - apply (H2 (mkQLocale "C" AnyLanguage AnyScript)); [|reflexivity].
    intros [? _]; discriminate.
  - apply (H3 zz_ZZ); [intros [? _]; discriminate|discriminate].
  - apply (H4 sr_Cyrl);
      [intros [_ ?]; discriminate|discriminate|reflexivity].
Defined.

(** ** The registry: what a load may touch *)

Section LoadSteps.

Variable h : Host.

Lemma load_step_refl t w : load_step t w w.
Proof.
  split; try done. exists []. by rewrite app_nil_r.
Qed.

Lemma load_step_trans t w1 w2 w3 :
  load_step t w1 w2 → load_step t w2 w3 → load_step t w1 w3.
Proof.
  intros [] [].
  split; try congruence.
  - intros x Hx. rewrite ls_other1, ls_other0; done.
  - destruct ls_trace0 as (e1 & He1 & F1), ls_trace1 as (e2 & He2 & F2).
    exists (e1 ++ e2). rewrite He2, He1, app_assoc.
    split; [done|]. by apply Forall_app.
Qed.

Lemma load_step_alter t c e w :
  is_load_event e = true →
  load_step t w
    (emit e (set_translators (alter (λ _, mkQTranslator c) t) w)).
Proof.
  intros He. split; simpl; try done.
  - apply dom_alter_L.
  - intros x Hx. by rewrite lookup_alter_ne.
  - exists [e]. split; [done|]. by constructor.
Qed.

Lemma load_step_emit t e w :
  is_load_event e = true → load_step t w (emit e w).
Proof.
  intros He. split; simpl; try done.
  exists [e]. split; [done|]. by constructor.
Qed.

Lemma QTranslator_load_step t f w :
  load_step t w (exec (QTranslator_load h t f) w).
Proof. by apply load_step_alter. Qed.

Lemma QTranslator_load_locale_step t l f p d w :
  load_step t w (exec (QTranslator_load_locale h t l f p d) w).
Proof. by apply load_step_alter. Qed.

Lemma QDir_exists_step t p w : load_step t w (exec (QDir_exists h p) w).
Proof. by apply load_step_emit. Qed.

Lemma cDebug_step t text arg w : load_step t w (exec (cDebug text arg) w).
Proof. by apply load_step_emit. Qed.

Lemma ret_step {A} t (a : A) w : load_step t w (exec (ret a) w).
Proof. apply load_step_refl. Qed.

Lemma bind_step {A B} t (m : State A) (k : A → State B) w :
  (∀ w, load_step t w (exec m w)) →
  (∀ a w, load_step t w (exec (k a) w)) →
  load_step t w (exec (bind m k) w).
Proof.
  intros Hm Hk. unfold exec, bind. specialize (Hm w). unfold exec in Hm.
  destruct (m w) as [a w1]. eapply load_step_trans; [exact Hm|apply Hk].
Qed.

Lemma tryLoad_step loader t w :
  load_step t w (exec (tryLoad h loader t) w).
Proof.
  revert w.
  assert (Hfile : ∀ text arg f w,
    load_step t w
      (exec (let* _ := cDebug text arg in QTranslator_load h t f) w)).
  { intros. apply bind_step; intros; [apply cDebug_step|apply QTranslator_load_step]. }
  assert (Hok : ∀ text arg w,
    load_step t w (exec (let* _ := cDebug text arg in ret true) w)).
  { intros. apply bind_step; intros; [apply cDebug_step|apply ret_step]. }
  destruct loader as [this prefix|this|this]; intros w; simpl.
  - unfold BrandingLoader_tryLoad.
    destruct (QString.isEmpty prefix); [apply ret_step|].
    apply bind_step; [intros; apply QDir_exists_step|].
    intros [] w1; [|apply ret_step].
    apply bind_step; [intros; apply QTranslator_load_locale_step|].
    intros [] w2; [apply Hok|apply Hfile].
  - apply bind_step; [intros; apply QTranslator_load_step|].
    intros [] w2; [apply Hok|apply Hfile].
  - apply bind_step; [intros; apply QTranslator_load_step|].
    intros [] w2; [apply Hok|apply Hfile].
Qed.

End LoadSteps.

(** ** The registry: one swap *)

Section Swap.

Variable h : Host.

Lemma get_set_slot s slot v w :
  get_slot s (set_slot slot v w) = if decide (s = slot) then v else get_slot s w.
Proof. destruct s, slot; reflexivity. Qed.

Lemma loadSingletonTranslator_eq loader slot w :
  exec (loadSingletonTranslator h loader slot) w =
    let t := fresh (dom (translators w)) in
    let w1 := exec (tryLoad h loader t)
                (emit (EvNew t)
                   (set_translators (insert t (mkQTranslator EmptyCatalog)) w)) in
    let w2 := match get_slot slot w1 with
              | Some p =>
                  emit (EvDelete p)
                    (set_translators (delete p)
                       (emit (EvRemove p)
                          (set_app_translators (filter (λ x, x ≠ p)) w1)))
              | None => w1
              end in
    set_slot slot (Some t)
      (emit (EvInstall t) (set_app_translators (cons t) w2)).
Proof.
  unfold exec, loadSingletonTranslator, bind, new_QTranslator, gets; simpl.
  destruct (tryLoad h loader _ _) as [b w1]; simpl.
  destruct (get_slot slot w1); reflexivity.
Qed.

Lemma fresh_translator_not_live (w : World) :
  fresh (dom (translators w)) ∉ dom (translators w).
Proof. apply is_fresh. Qed.

Lemma loadSingletonTranslator_swapped loader slot w :
  (∀ p, get_slot slot w = Some p → p ∈ dom (translators w)) →
  swapped slot w (exec (loadSingletonTranslator h loader slot) w).
Proof.
  intros Hlive.
  rewrite loadSingletonTranslator_eq. cbv zeta.
  pose proof (fresh_translator_not_live w) as Hfresh.
  set (t := fresh (dom (translators w))) in *.
  set (w0 := emit (EvNew t) _).
  pose proof (tryLoad_step h loader t w0) as [Hst Hob Hsl Hnm Hdom Hoth Htr].
  set (w1 := exec (tryLoad h loader t) w0) in *.
  assert (Hslot : get_slot slot w1 = get_slot slot w).
  { rewrite Hsl. by destruct slot. }
  assert (Ht1 : t ∈ dom (translators w1)).
  { rewrite Hdom. subst w0; simpl. rewrite dom_insert_L.
    apply elem_of_union_l, elem_of_singleton. done. }
  assert (Hoth' : ∀ x, x ≠ t → translators w1 !! x = translators w !! x).
  { intros x Hx. rewrite Hoth by done. subst w0; simpl.
    by rewrite lookup_insert_ne. }
  destruct Htr as (evs & Htr & Hevs).
  assert (Hslots : ∀ s, get_slot s w1 = get_slot s w).
  { intros s. rewrite Hsl. by destruct s. }
  rewrite Hslot.
  destruct (get_slot slot w) as [p|] eqn:Hold.
  - assert (Hpt : p ≠ t) by (intros ->; by apply Hfresh, Hlive).
    split.
    + intros s. rewrite get_set_slot. case_decide; [done|].
      rewrite <-Hslots. by destruct s.
    + rewrite Hold. destruct slot; simpl; by rewrite Hst.
    + assert (t ∈ dom (delete p (translators w1))); [|by destruct slot].
      rewrite dom_delete_L. apply elem_of_difference. split; [done|].
      intros Hin%elem_of_singleton. by apply Hpt.
    + intros x Hx.
      transitivity (delete p (translators w1) !! x); [by destruct slot|].
      rewrite Hold. case_decide as Hd.
      * injection Hd as ->. apply lookup_delete_eq.
      * rewrite lookup_delete_ne by congruence. by apply Hoth'.
    + exists evs. split; [done|]. rewrite Hold.
      transitivity (((trace w1 ++ [EvRemove p]) ++ [EvDelete p])
                    ++ [EvInstall t]); [by destruct slot|].
      rewrite Htr. subst w0; simpl. by rewrite <-!app_assoc.
    + destruct slot; simpl; by rewrite Hob.
    + destruct slot; simpl; by rewrite Hnm.
  - split.
    + intros s. rewrite get_set_slot. case_decide; [done|].
      rewrite <-Hslots. by destruct s.
    + rewrite Hold. destruct slot; simpl; by rewrite Hst.
    + by destruct slot.
    + intros x Hx.
      transitivity (translators w1 !! x); [by destruct slot|].
      rewrite Hold. case_decide; [done|]. by apply Hoth'.
    + exists evs. split; [done|]. rewrite Hold.
      transitivity (trace w1 ++ [EvInstall t]); [by destruct slot|].
      rewrite Htr. subst w0; simpl. by rewrite <-!app_assoc.
    + destruct slot; simpl; by rewrite Hob.
    + destruct slot; simpl; by rewrite Hnm.
Qed.

End Swap.

(** ** The registry invariant *)

Section Replay.

Lemma replay_app e1 e2 st : replay (e1 ++ e2) st = replay e2 (replay e1 st).
Proof.
  revert st; induction e1 as [|[] e1 IH]; intros st; simpl; auto.
Qed.

Lemma replay_quiet evs st :
  Forall (λ e, is_stack_event e = false) evs → replay evs st = st.
Proof.
  induction 1 as [|[] evs He _ IH]; simpl; try done.
Qed.

Lemma load_events_quiet evs :
  Forall (λ e, is_load_event e = true) evs →
  Forall (λ e, is_stack_event e = false) evs.
Proof. intros Hall. eapply Forall_impl; [exact Hall|]. by intros []. Qed.

Lemma load_events_not_new evs t :
  Forall (λ e, is_load_event e = true) evs → EvNew t ∉ evs.
Proof.
  intros Hall Hin. rewrite Forall_forall in Hall.
  by specialize (Hall _ Hin).
Qed.

Lemma prefix_Forall {A} (P : A → Prop) (l1 l2 : list A) :
  l1 `prefix_of` l2 → Forall P l2 → Forall P l1.
Proof. intros [k ->] [? _]%Forall_app. done. Qed.

Lemma prefix_app_cases {A} (p l1 l2 : list A) :
  p `prefix_of` l1 ++ l2 →
  p `prefix_of` l1 ∨ ∃ q, p = l1 ++ q ∧ q `prefix_of` l2.
Proof.
  intros Hp.
  destruct (prefix_weak_total p l1 (l1 ++ l2)) as [H|[q ->]];
    [done|by apply prefix_app_r|by left|].
  right. exists q. split; [done|]. by apply prefix_app_inv in Hp.
Qed.

Lemma without_app old l1 l2 :
  (∀ p, old = Some p → p ∉ l2) →
  without old (l1 ++ l2) = without old l1 ++ l2.
Proof.
  destruct old as [p|]; simpl; [|done].
  intros Hp. rewrite filter_app. f_equal.
  induction l2 as [|x l2 IH]; [done|].
  rewrite filter_cons. case_decide as Hx.
  - f_equal. apply IH. intros ? [= <-] ?. eapply Hp; [done|by right].
  - exfalso. subst. eapply Hp; [done|by left].
Qed.

Lemma length_without old l : length (without old l) ≤ length l.
Proof. destruct old; simpl; [apply length_filter|done]. Qed.

(** The list at each moment of one swap. *)
Lemma replay_swap_prefix q t evs old st :
  Forall (λ e, is_load_event e = true) evs →
  q `prefix_of` [EvNew t] ++ evs ++ swap_events old ++ [EvInstall t] →
  replay q st = st ∨ replay q st = without old st
  ∨ replay q st = t :: without old st.
Proof.
  intros Hevs Hq.
  rewrite (app_assoc [EvNew t]) in Hq.
  apply prefix_app_cases in Hq as [Hq|(q2 & -> & Hq)].
  - left. apply replay_quiet. eapply prefix_Forall; [done|].
    apply Forall_app. split; [by repeat constructor|].
    by apply load_events_quiet.
  - rewrite replay_app, (replay_quiet (_ ++ _)); last first.
    { apply Forall_app. split; [by repeat constructor|].
      by apply load_events_quiet. }
    destruct old as [p|]; simpl in *.
    + destruct q2 as [|e1 [|e2 [|e3 q2]]].
      * by left.
      * apply prefix_cons_inv_1 in Hq as ->. right; by left.
      * pose proof (prefix_cons_inv_1 _ _ _ _ Hq) as ->.
        apply prefix_cons_inv_2, prefix_cons_inv_1 in Hq as ->.
        right; by left.
      * pose proof (prefix_cons_inv_1 _ _ _ _ Hq) as ->.
        apply prefix_cons_inv_2 in Hq.
        pose proof (prefix_cons_inv_1 _ _ _ _ Hq) as ->.
        apply prefix_cons_inv_2 in Hq.
        pose proof (prefix_cons_inv_1 _ _ _ _ Hq) as ->.
        apply prefix_cons_inv_2, prefix_nil_inv in Hq as ->.
        right; by right.
    + destruct q2 as [|e1 q2].
      * by left.
      * pose proof (prefix_cons_inv_1 _ _ _ _ Hq) as ->.
        apply prefix_cons_inv_2, prefix_nil_inv in Hq as ->.
        right; by right.
Qed.

Lemma slots_bound w l :
  NoDup l → (∀ t, t ∈ l → ∃ s, get_slot s w = Some t) → length l ≤ 3.
Proof.
  intros Hnd Hl.
  transitivity (length (slot_values w)).
  - apply submseteq_length, NoDup_submseteq; [done|].
    intros t [s Hs]%Hl. unfold slot_values.
    apply list_elem_of_omap. exists s. split; [|done].
    destruct s; set_solver.
  - unfold slot_values; simpl.
    destruct (s_brandingTranslator w), (s_tztranslator w), (s_translator w);
      simpl; lia.
Qed.

Lemma filter_none {A} (P : A → Prop) `{∀ x, Decision (P x)} (l : list A) :
  (∀ x, x ∈ l → ¬ P x) → filter P l = [].
Proof.
  induction l as [|x l IH]; intros Hl; [done|].
  rewrite filter_cons. case_decide as Hx.
  - exfalso. apply (Hl x); [by left|done].
  - apply IH. intros y Hy. apply Hl. by right.
Qed.

Lemma own_installed_bound p hs X :
  replay p hs = X ++ hs → (∀ t, t ∈ hs → EvNew t ∉ p) → length X ≤ 3 →
  length (own_installed p hs) ≤ 3.
Proof.
  intros Hr Hhs HX. unfold own_installed.
  rewrite Hr, filter_app, (filter_none _ hs) by done.
  rewrite app_nil_r. etrans; [apply length_filter|done].
Qed.

End Replay.

Section Invariant.

Variable h : Host.
Variable host_stack : list TrId.

Lemma replay_swap t evs old st :
  Forall (λ e, is_load_event e = true) evs →
  replay ([EvNew t] ++ evs ++ swap_events old ++ [EvInstall t]) st
  = t :: without old st.
Proof.
  intros Hevs. simpl.
  rewrite replay_app, (replay_quiet evs) by by apply load_events_quiet.
  by destruct old.
Qed.

Lemma elem_of_without old l x :
  x ∈ without old l ↔ x ∈ l ∧ old ≠ Some x.
Proof.
  destruct old as [p|]; simpl.
  - rewrite list_elem_of_filter. split; intros [? ?]; split; congruence.
  - split; [by intros ?|by intros [? _]].
Qed.

Lemma swapped_inv slot w w' :
  registry_inv host_stack w → swapped slot w w' → registry_inv host_stack w'.
Proof.
  intros [Hlive Hinj (l & Hst & Hnd & Hl) Hhl Hhs Hhn Hrp Hbd]
         [Ss Sst Snew Soth (evs & Hevs & Str) _ _].
  pose proof (fresh_translator_not_live w) as Hfresh.
  set (t := fresh (dom (translators w))) in *.
  set (old := get_slot slot w) in *.
  assert (Hold_hs : ∀ p, old = Some p → p ∉ host_stack).
  { intros p Hp Hin. by eapply Hhs. }
  assert (Ht_l : t ∉ l).
  { intros [s Hs]%Hl. apply Hfresh. by eapply Hlive. }
  assert (Ht_hs : t ∉ host_stack).
  { intros Hin. by apply Hfresh, Hhl. }
  assert (Hstack' : app_translators w' = (t :: without old l) ++ host_stack).
  { by rewrite Sst, Hst, without_app. }
  assert (Hnd' : NoDup (t :: without old l)).
  { constructor.
    - intros [Hin _]%elem_of_without. done.
    - destruct old; simpl; [by apply NoDup_filter|done]. }
  assert (Hl' : ∀ x, x ∈ t :: without old l ↔ ∃ s, get_slot s w' = Some x).
  { intros x. rewrite elem_of_cons, elem_of_without. split.
    - intros [->|[[s Hs]%Hl Hxo]].
      + exists slot. by rewrite Ss, decide_True.
      + exists s. rewrite Ss. case_decide; [subst; done|done].
    - intros [s Hs]. rewrite Ss in Hs. case_decide as Hd.
      + left. congruence.
      + right. split; [apply Hl; eauto|].
        intros Ho. apply Hd. by eapply Hinj. }
  assert (Hhn' : ∀ x, x ∈ host_stack → EvNew x ∉ trace w').
  { intros x Hx. rewrite Str, !elem_of_app.
    intros [Hin|[Hin|[Hin|[Hin|Hin]]]].
    - by eapply Hhn.
    - apply list_elem_of_singleton in Hin as [= ->]. done.
    - by eapply load_events_not_new.
    - destruct old; simpl in Hin; [|by apply elem_of_nil in Hin].
      repeat (apply elem_of_cons in Hin as [Hin|Hin]; [done|]).
      by apply elem_of_nil in Hin.
    - by apply list_elem_of_singleton in Hin. }
  split; try done.
  - intros s x Hs. rewrite Ss in Hs. case_decide as Hd.
    + by injection Hs as <-.
    + assert (x ∈ dom (translators w)) as Hx by by eapply Hlive.
      apply elem_of_dom. rewrite Soth by (by intros ->).
      rewrite decide_False; [by apply elem_of_dom|].
      intros Ho. apply Hd. by eapply Hinj.
  - intros s1 s2 x. rewrite !Ss.
    repeat case_decide; subst; try done.
    + intros [= <-] Hs. exfalso. apply Hfresh. by eapply Hlive.
    + intros Hs [= <-]. exfalso. apply Hfresh. by eapply Hlive.
    + apply Hinj.
  - by exists (t :: without old l).
  - intros x Hx. apply elem_of_dom. rewrite Soth by (by intros ->).
    rewrite decide_False; [by apply elem_of_dom, Hhl|].
    by apply Hhs.
  - intros x s Hx. rewrite Ss. case_decide.
    + by intros [= ->].
    + by apply Hhs.
  - rewrite Str, replay_app, Hrp, replay_swap by done. done.
  - intros p Hp. rewrite Str in Hp.
    assert (Hnew_p : ∀ x, x ∈ host_stack → EvNew x ∉ p).
    { intros x Hx Hin. apply (Hhn' x Hx). rewrite Str.
      destruct Hp as [k ->]. apply elem_of_app. by left. }
    apply prefix_app_cases in Hp as [Hp|(q & -> & Hq)]; [by apply Hbd|].
    assert (Hlen : length l ≤ 3).
    { apply (slots_bound w); [done|]. by intros x ?%Hl. }
    pose proof (replay_swap_prefix q t evs old (app_translators w) Hevs Hq)
      as Hcases.
    assert (Hrq : replay (trace w ++ q) host_stack
                  = replay q (app_translators w)).
    { by rewrite replay_app, Hrp. }
    rewrite <-Hrq, Hst, without_app in Hcases by done.
    destruct Hcases as [Hc|[Hc|Hc]].
    + by apply (own_installed_bound _ _ l).
    + apply (own_installed_bound _ _ (without old l)); [done..|].
      etrans; [apply length_without|done].
    + apply (own_installed_bound _ _ (t :: without old l)); [done..|].
      apply (slots_bound w'); [done|]. by intros x ?%Hl'.
Qed.

End Invariant.

(** ** Sequences of calls *)

Section InstallFacts.

Variable h : Host.

Lemma exec_bind {A B} (m : State A) (k : A → State B) w :
  exec (bind m k) w = exec (k (eval m w)) (exec m w).
Proof. unfold exec, eval, bind. by destruct (m w). Qed.

Lemma installTranslator_eq locale prefix parent_ w :
  exec (installTranslator h locale prefix parent_) w =
    set_s_translatorLocaleName (mungeLocaleName locale)
      (exec (loadSingletonTranslator h (CalamaresLoader_new locale) AppSlot)
         (exec (loadSingletonTranslator h (TZLoader_new locale) TzSlot)
            (exec (loadSingletonTranslator h
                     (BrandingLoader_new locale prefix) BrandingSlot) w))).
Proof. unfold installTranslator. by rewrite !exec_bind. Qed.

Lemma install_all_app calls1 calls2 w :
  exec (install_all h (calls1 ++ calls2)) w
  = exec (install_all h calls2) (exec (install_all h calls1) w).
Proof.
  revert w; induction calls1 as [|[[l p] par] calls1 IH]; intros w; [done|].
  simpl. rewrite !exec_bind. apply IH.
Qed.

Lemma initial_world_inv ht hs ho :
  (∀ t, t ∈ hs → t ∈ dom ht) → registry_inv hs (initial_world ht hs ho).
Proof.
  intros Hhs. split; simpl; try done.
  - by intros [].
  - by intros [] [].
  - exists []. split; [done|]. split; [constructor|].
    intros t. split; [by intros ?%elem_of_nil|by intros [[] ?]].
  - by intros t [].
  - intros t _. apply not_elem_of_nil.
  - intros p ->%prefix_nil_inv. unfold own_installed.
    simpl. rewrite (filter_none _ hs); [simpl; lia|].
    intros x _. apply not_elem_of_nil.
Qed.

Lemma set_name_inv hs s w :
  registry_inv hs w → registry_inv hs (set_s_translatorLocaleName s w).
Proof. intros []. by split. Qed.

Lemma loadSingletonTranslator_inv hs loader slot w :
  registry_inv hs w →
  registry_inv hs (exec (loadSingletonTranslator h loader slot) w).
Proof.
  intros Hinv. eapply swapped_inv; [done|].
  apply loadSingletonTranslator_swapped. intros p. apply Hinv.
Qed.

Lemma installTranslator_inv hs locale prefix parent_ w :
  registry_inv hs w →
  registry_inv hs (exec (installTranslator h locale prefix parent_) w).
Proof.
  intros Hinv. rewrite installTranslator_eq.
  apply set_name_inv. by do 3 apply loadSingletonTranslator_inv.
Qed.

Lemma install_all_inv hs calls w :
  registry_inv hs w → registry_inv hs (exec (install_all h calls) w).
Proof.
  revert w; induction calls as [|[[l p] par] calls IH]; intros w Hinv; [done|].
  simpl. rewrite exec_bind. by apply IH, installTranslator_inv.
Qed.

End InstallFacts.

(** * Main results *)

(** C1.  After [installTranslator( L, prefix, parent )] returns,
    [translatorLocaleName()] is [mungeLocaleName( L )], for every host,
    that is, whatever the load attempts answered, and from every world. *)
Theorem translatorLocaleName_after_install
    (h : Host) (locale : QLocale) (prefix : string) (parent_ : option ObjId)
    (w : World) :
  eval translatorLocaleName (exec (installTranslator h locale prefix parent_) w)
  = mungeLocaleName locale.
Proof. by rewrite installTranslator_eq. Qed.

(** C9.  The third parameter of [installTranslator] is never read: two
    calls that differ only in it return the same result and the same world
    (slots, translator list, live translators, locale name and trace). *)
Theorem installTranslator_ignores_parent
    (h : Host) (locale : QLocale) (prefix : string)
    (parent1 parent2 : option ObjId) (w : World) :
  installTranslator h locale prefix parent1 w
  = installTranslator h locale prefix parent2 w.
Proof. reflexivity. Qed.

(** C6.  [CalamaresLoader::tryLoad] first tries
    [:/lang/calamares_<munged name>].  When that load succeeds the result is
    [true] and nothing else is attempted; when it fails there is exactly
    one more attempt, at [:/lang/calamares_en], and its outcome is the
    result. *)
Theorem CalamaresLoader_tryLoad_fallback
    (h : Host) (locale : QLocale) (translator : TrId) (w : World) :
  let primary := ":/lang/calamares_" +:+ mungeLocaleName locale in
  let fallback := ":/lang/calamares_en" in
  let result := tryLoad h (CalamaresLoader_new locale) translator w in
  fst result = (if load_file h primary then true else load_file h fallback)
  ∧ trace (snd result)
    = trace w ++
      (if load_file h primary
       then [EvLoad translator primary true;
             EvDebug "Calamares using locale:" (mungeLocaleName locale)]
       else [EvLoad translator primary false;
             EvDebug "Calamares using default, system locale not found:"
                     (mungeLocaleName locale);
             EvLoad translator fallback (load_file h fallback)])
  ∧ load_attempts (drop (length (trace w)) (trace (snd result)))
    = (if load_file h primary then [primary] else [primary; fallback]).
Proof.
  intros primary fallback result.
  assert (Htrace : trace (snd result)
    = trace w ++
      (if load_file h primary
       then [EvLoad translator primary true;
             EvDebug "Calamares using locale:" (mungeLocaleName locale)]
       else [EvLoad translator primary false;
             EvDebug "Calamares using default, system locale not found:"
                     (mungeLocaleName locale);
             EvLoad translator fallback (load_file h fallback)])).
  { subst result. simpl.
    unfold CalamaresLoader_tryLoad, bind, QTranslator_load; simpl.
    fold primary. destruct (load_file h primary); simpl;
      by rewrite <-!app_assoc. }
  split_and!.
  - subst result. simpl.
    unfold CalamaresLoader_tryLoad, bind, QTranslator_load; simpl.
    fold primary. by destruct (load_file h primary).
  - done.
  - rewrite Htrace, drop_app_length. by destruct (load_file h primary).
Qed.

(** C4.  Start from a process in which the host's own installed
    translators are live objects, and make any sequence of
    [installTranslator] calls.  Then
    - at every moment of the run (every prefix of the trace) at most three
      translators allocated by this code are on the application's list;
    - afterwards the list is the host's translators with, in front of
      them, exactly the translators held by the slots, each once, each
      live and in one slot only;
    - every further swap of a slot allocates the new translator, loads it,
      takes the previous occupant of the slot off the list, deletes it, and
      only then installs the new one; the previous occupant is then neither
      live nor on the list. *)
Theorem registry_at_most_three
    (h : Host) (ht : gmap nat QTranslator) (hs : list TrId)
    (ho : gmap nat QObject) (calls : list (QLocale * string * option ObjId)) :
  (∀ t, t ∈ hs → t ∈ dom ht) →
  let w := exec (install_all h calls) (initial_world ht hs ho) in
  (∀ p, p `prefix_of` trace w → length (own_installed p hs) ≤ 3)
  ∧ (∃ l, app_translators w = l ++ hs ∧ NoDup l ∧ length l ≤ 3
          ∧ (∀ t, t ∈ l ↔ ∃ s, get_slot s w = Some t)
          ∧ (∀ s t, get_slot s w = Some t → t ∈ dom (translators w))
          ∧ (∀ s1 s2 t, get_slot s1 w = Some t → get_slot s2 w = Some t →
                        s1 = s2))
  ∧ (∀ loader slot,
       let w' := exec (loadSingletonTranslator h loader slot) w in
       ∃ t evs,
         (t ∉ dom (translators w))
         ∧ Forall (λ e, is_load_event e = true) evs
         ∧ trace w' = trace w ++ [EvNew t] ++ evs
                      ++ swap_events (get_slot slot w) ++ [EvInstall t]
         ∧ get_slot slot w' = Some t
         ∧ (∀ old, get_slot slot w = Some old →
                   (old ∉ dom (translators w')) ∧ (old ∉ app_translators w'))).
Proof.
  intros Hhs w.
  assert (Hinv : registry_inv hs w).
  { by apply install_all_inv, initial_world_inv. }
  split_and!.
  - apply Hinv.
  - destruct Hinv as [Hlive Hinj (l & Hst & Hnd & Hl) _ _ _ _ _].
    exists l. split_and!; try done.
    apply (slots_bound w); [done|]. by intros x ?%Hl.
  - intros loader slot w'.
    destruct (loadSingletonTranslator_swapped h loader slot w)
      as [Ss Sst Snew Soth (evs & Hevs & Str) _ _].
    { intros p. apply Hinv. }
    fold w' in Ss, Sst, Snew, Soth, Str.
    pose proof (fresh_translator_not_live w) as Hfresh.
    set (t := fresh (dom (translators w))) in *.
    exists t, evs. split_and!; try done.
    + by rewrite Ss, decide_True.
    + intros old Hold.
      assert (Hne : old ≠ t).
      { intros ->. apply Hfresh. by eapply ri_live. }
      split.
      * rewrite elem_of_dom, Soth, decide_True by done.
        by intros [? ?].
      * rewrite Sst, Hold. simpl. rewrite elem_of_cons, list_elem_of_filter.
        intros [?|[? _]]; done.
Qed.

Lemma registry_at_most_three_witness :
  let w := exec (install_all en_only_host
                   [(en_US, "", None); (fr, "/usr/share/branding/", Some 0)])
                (initial_world {[ 7 := mkQTranslator EmptyCatalog ]} [7] ∅) in
  length (own_installed (trace w) [7]) ≤ 3.
Proof.
  intros w.
  refine (proj1 (registry_at_most_three en_only_host
                   {[ 7 := mkQTranslator EmptyCatalog ]} [7] ∅
                   [(en_US, "", None); (fr, "/usr/share/branding/", Some 0)] _)
                (trace w) _).
  - intros t ->%list_elem_of_singleton. by apply elem_of_dom.
  - done.
Defined.

Section EmptyPrefix.

Variable h : Host.

Lemma BrandingLoader_tryLoad_empty locale translator w :
  tryLoad h (BrandingLoader_new locale "") translator w = (false, w).
Proof. reflexivity. Qed.

(** The Branding swap when the prefix is empty. *)
Lemma branding_empty_swap locale w :
  (∀ p, s_brandingTranslator w = Some p → p ∈ dom (translators w)) →
  let t := fresh (dom (translators w)) in
  let w1 := exec (loadSingletonTranslator h (BrandingLoader_new locale "")
                    BrandingSlot) w in
  s_brandingTranslator w1 = Some t
  ∧ translators w1 !! t = Some (mkQTranslator EmptyCatalog)
  ∧ t ∈ app_translators w1
  ∧ trace w1 = trace w ++ [EvNew t] ++ swap_events (s_brandingTranslator w)
               ++ [EvInstall t].
Proof.
  intros Hlive t w1. subst w1.
  rewrite loadSingletonTranslator_eq. cbv zeta.
  fold t. unfold exec. rewrite BrandingLoader_tryLoad_empty. simpl.
  destruct (s_brandingTranslator w) as [p|] eqn:Hold; simpl.
  - assert (p ≠ t).
    { intros ->. by apply (fresh_translator_not_live w), Hlive. }
    split_and!; [done| |by left|by rewrite <-!app_assoc].
    by rewrite lookup_delete_ne, lookup_insert_eq.
  - split_and!; [done| |by left|by rewrite <-!app_assoc].
    by rewrite lookup_insert_eq.
Qed.

(** A swap of one slot leaves the occupants of the other slots alone. *)
Lemma swapped_keeps hs slot s t w w' :
  registry_inv hs w → swapped slot w w' → s ≠ slot →
  get_slot s w = Some t →
  get_slot s w' = Some t
  ∧ translators w' !! t = translators w !! t
  ∧ (t ∈ app_translators w → t ∈ app_translators w').
Proof.
  intros Hinv [Ss Sst _ Soth _ _ _] Hne Hs.
  assert (Hold : get_slot slot w ≠ Some t).
  { intros Ho. apply Hne. by eapply ri_inj. }
  assert (Ht : t ≠ fresh (dom (translators w))).
  { intros ->. eapply fresh_translator_not_live, ri_live; done. }
  split_and!.
  - by rewrite Ss, decide_False.
  - by rewrite Soth, decide_False.
  - intros Hin. rewrite Sst. right. by apply elem_of_without.
Qed.

End EmptyPrefix.

(** C7.  With an empty branding prefix, [BrandingLoader::tryLoad] returns
    [false] and touches nothing: no load attempt, no directory test, no
    other event, no change of the world.  [installTranslator] all the same
    puts a newly allocated translator into the Branding slot; it is empty,
    live and on the application's list when the call returns, and between
    its allocation and its installation the trace has nothing but the
    removal of the previous occupant. *)
Theorem empty_branding_prefix
    (h : Host) (ht : gmap nat QTranslator) (hs : list TrId)
    (ho : gmap nat QObject) (calls : list (QLocale * string * option ObjId))
    (locale : QLocale) (parent_ : option ObjId) :
  (∀ t, t ∈ hs → t ∈ dom ht) →
  let w := exec (install_all h calls) (initial_world ht hs ho) in
  let w' := exec (installTranslator h locale "" parent_) w in
  (∀ translator w0,
     tryLoad h (BrandingLoader_new locale "") translator w0 = (false, w0))
  ∧ (∃ t rest,
       (t ∉ dom (translators w))
       ∧ s_brandingTranslator w' = Some t
       ∧ translators w' !! t = Some (mkQTranslator EmptyCatalog)
       ∧ t ∈ app_translators w'
       ∧ trace w' = trace w ++ [EvNew t]
                    ++ swap_events (s_brandingTranslator w)
                    ++ [EvInstall t] ++ rest).
Proof.
  intros Hhs w w'.
  split; [intros; apply BrandingLoader_tryLoad_empty|].
  assert (Hinv : registry_inv hs w).
  { by apply install_all_inv, initial_world_inv. }
  subst w'. rewrite installTranslator_eq.
  set (t := fresh (dom (translators w))).
  set (w1 := exec (loadSingletonTranslator h _ BrandingSlot) w).
  set (w2 := exec (loadSingletonTranslator h _ TzSlot) w1).
  set (w3 := exec (loadSingletonTranslator h _ AppSlot) w2).
  destruct (branding_empty_swap h locale w) as (Hs1 & Hc1 & Hin1 & Htr1).
  { intros p. apply (ri_live _ _ Hinv BrandingSlot). }
  fold t w1 in Hs1, Hc1, Hin1, Htr1.
  assert (Hinv1 : registry_inv hs w1) by by apply loadSingletonTranslator_inv.
  assert (Hinv2 : registry_inv hs w2) by by apply loadSingletonTranslator_inv.
  assert (Hsw2 : swapped TzSlot w1 w2).
  { apply loadSingletonTranslator_swapped. intros p. apply Hinv1. }
  assert (Hsw3 : swapped AppSlot w2 w3).
  { apply loadSingletonTranslator_swapped. intros p. apply Hinv2. }
  destruct (swapped_keeps hs TzSlot BrandingSlot t w1 w2) as (Hs2 & Hc2 & Hin2);
    [done..|].
  destruct (swapped_keeps hs AppSlot BrandingSlot t w2 w3) as (Hs3 & Hc3 & Hin3);
    [done..|].
  destruct Hsw2 as [_ _ _ _ (evs2 & _ & Htr2) _ _].
  destruct Hsw3 as [_ _ _ _ (evs3 & _ & Htr3) _ _].
  exists t. eexists. split_and!.
  - apply fresh_translator_not_live.
  - exact Hs3.
  - simpl. by rewrite Hc3, Hc2.
  - simpl. auto.
  - simpl. rewrite Htr3, Htr2, Htr1. rewrite <-!app_assoc. reflexivity.
Qed.

Lemma empty_branding_prefix_witness :
  let w := exec (install_all bare_host [(fr, "/usr/share/branding/", None)])
                (initial_world {[ 7 := mkQTranslator EmptyCatalog ]} [7] ∅) in
  tryLoad bare_host (BrandingLoader_new zz_ZZ "") 3 w = (false, w).
Proof.
  intros w.
  refine (proj1 (empty_branding_prefix bare_host
                   {[ 7 := mkQTranslator EmptyCatalog ]} [7] ∅
                   [(fr, "/usr/share/branding/", None)] zz_ZZ None _) 3 w).
  intros t ->%list_elem_of_singleton. by apply elem_of_dom.
Defined.

(** ** The hub: graph facts *)

Section HubFacts.

Lemma first_Retranslator_head w cs :
  first_Retranslator w cs = head (retranslators_in w cs).
Proof.
  induction cs as [|c cs IH]; [done|]. simpl.
  unfold retranslators_in; simpl.
  by destruct (qobject_cast_Retranslator w c).
Qed.

Lemma cast_Some w c r :
  qobject_cast_Retranslator w c = Some r ↔
  r = c ∧ ∃ o fs, objects w !! c = Some o ∧ kind o = RetranslatorObject fs.
Proof.
  unfold qobject_cast_Retranslator.
  destruct (objects w !! c) as [o|]; [destruct (kind o) eqn:Hk|].
  - split; [done|]. by intros [_ (? & ? & [= <-] & ?)]; congruence.
  - split; [intros [= <-]; eauto|by intros [-> _]].
  - split; [done|]. by intros [_ (? & ? & ? & ?)].
Qed.

Lemma fresh_object_not_live (w : World) :
  objects w !! fresh (dom (objects w)) = None.
Proof. apply not_elem_of_dom, is_fresh. Qed.

Section New.

Variables (w : World) (P : ObjId) (p : QObject).
Hypothesis HP : objects w !! P = Some p.

Local Abbreviation r := (fresh (dom (objects w))).
Local Abbreviation w1 := (snd (Retranslator_new P w)).

Lemma new_ne : r ≠ P.
Proof.
  intros Heq. pose proof (fresh_object_not_live w) as Hf.
  rewrite Heq, HP in Hf. done.
Qed.

Lemma new_lookup_r :
  objects w1 !! r = Some (mkQObject (Some P) [] [] (RetranslatorObject [])).
Proof.
  simpl.
  rewrite !lookup_alter_ne by (apply not_eq_sym, new_ne).
  by rewrite lookup_insert_eq.
Qed.

Lemma new_lookup_P :
  objects w1 !! P = Some (installEventFilter r (add_child r p)).
Proof.
  simpl.
  rewrite !lookup_alter_eq, lookup_insert_ne by apply new_ne.
  by rewrite HP.
Qed.

Lemma new_lookup_other x :
  x ≠ r → x ≠ P → objects w1 !! x = objects w !! x.
Proof.
  intros Hr Hp. simpl.
  by rewrite !lookup_alter_ne, lookup_insert_ne.
Qed.

Lemma new_cast_r : qobject_cast_Retranslator w1 r = Some r.
Proof. unfold qobject_cast_Retranslator. by rewrite new_lookup_r. Qed.

Lemma new_cast_other x :
  x ≠ r → qobject_cast_Retranslator w1 x = qobject_cast_Retranslator w x.
Proof.
  intros Hr. unfold qobject_cast_Retranslator.
  destruct (decide (x = P)) as [->|Hp].
  - by rewrite new_lookup_P, HP.
  - by rewrite new_lookup_other.
Qed.

Lemma new_first cs :
  first_Retranslator w cs = None →
  first_Retranslator w1 (cs ++ [r]) = Some r.
Proof.
  induction cs as [|c cs IH]; cbn [app first_Retranslator].
  - by rewrite new_cast_r.
  - destruct (decide (c = r)) as [->|Hc]; [by rewrite new_cast_r|].
    rewrite new_cast_other by done.
    destruct (qobject_cast_Retranslator w c); [done|apply IH].
Qed.

Lemma new_retranslators_in cs :
  r ∉ cs → retranslators_in w1 cs = retranslators_in w cs.
Proof.
  intros Hr. apply list_omap_ext, Forall2_same_length_lookup.
  split; [done|]. intros i x y Hx Hy. assert (x = y) as <- by congruence.
  apply new_cast_other. intros ->. apply Hr.
  by eapply list_elem_of_lookup_2.
Qed.

End New.

End HubFacts.

Section HubInvariant.

Lemma retranslatorFor_found w P p r :
  objects w !! P = Some p →
  first_Retranslator w (children p) = Some r →
  retranslatorFor P w = Some (r, w).
Proof. intros HP Hf. unfold retranslatorFor. by rewrite HP, Hf. Qed.

Lemma retranslatorFor_created w P p :
  objects w !! P = Some p →
  first_Retranslator w (children p) = None →
  retranslatorFor P w = Some (Retranslator_new P w).
Proof. intros HP Hf. unfold retranslatorFor. by rewrite HP, Hf. Qed.

Lemma head_None_nil {A} (l : list A) : head l = None → l = [].
Proof. by destruct l. Qed.

Lemma new_hub_inv w P p :
  objects w !! P = Some p →
  first_Retranslator w (children p) = None →
  hub_inv w →
  hub_inv (snd (Retranslator_new P w))
  ∧ retranslators_in (snd (Retranslator_new P w))
      (children p ++ [fresh (dom (objects w))])
    = [fresh (dom (objects w))].
Proof.
  intros HP Hnone [Hch Hone].
  pose proof (fresh_object_not_live w) as Hfresh.
  pose proof (new_ne w P p HP) as Hne.
  pose proof (new_lookup_r w P p HP) as Hr.
  pose proof (new_lookup_P w P p HP) as HP1.
  pose proof (new_lookup_other w P) as Hoth.
  set (r := fresh (dom (objects w))) in *.
  set (w1 := snd (Retranslator_new P w)) in *.
  assert (Hlive_ne : ∀ x, is_Some (objects w !! x) → x ≠ r).
  { intros x [o Ho] ->. congruence. }
  assert (Hkids : ∀ q o, objects w !! q = Some o → r ∉ children o).
  { intros q o Hq Hin. destruct (Hch q o r Hq Hin) as (co & Hco & _).
    congruence. }
  assert (HPkids : retranslators_in w1 (children p ++ [r]) = [r]).
  { unfold retranslators_in. rewrite omap_app.
    fold (retranslators_in w1 (children p)).
    subst w1 r. rewrite (new_retranslators_in w P p HP) by by eapply Hkids.
    rewrite first_Retranslator_head in Hnone.
    apply head_None_nil in Hnone. rewrite Hnone, app_nil_l.
    cbn [omap list_omap]. by rewrite (new_cast_r w P p HP). }
  split; [|done]. split.
  - intros q o c Hq Hc.
    destruct (decide (q = r)) as [->|Hqr].
    { rewrite Hr in Hq. injection Hq as <-. by apply elem_of_nil in Hc. }
    destruct (decide (q = P)) as [->|HqP].
    + rewrite HP1 in Hq. injection Hq as <-. simpl in Hc.
      apply elem_of_app in Hc as [Hc|Hc%list_elem_of_singleton];
        [|subst c].
      * destruct (Hch P p c HP Hc) as (co & Hco & Hpar).
        destruct (decide (c = P)) as [->|HcP].
        -- exists (installEventFilter r (add_child r p)).
           split; [done|]. simpl. congruence.
        -- exists co. split; [|done]. rewrite Hoth; [done| |done].
           apply Hlive_ne. by rewrite Hco.
      * eexists. split; [exact Hr|done].
    + rewrite Hoth in Hq by done.
      destruct (Hch q o c Hq Hc) as (co & Hco & Hpar).
      destruct (decide (c = P)) as [->|HcP].
      * exists (installEventFilter r (add_child r p)).
        split; [done|]. simpl. congruence.
      * exists co. split; [|done]. rewrite Hoth; [done| |done].
        apply Hlive_ne. by rewrite Hco.
  - intros q o Hq.
    destruct (decide (q = r)) as [->|Hqr].
    { rewrite Hr in Hq. injection Hq as <-. simpl. lia. }
    destruct (decide (q = P)) as [->|HqP].
    + rewrite HP1 in Hq. injection Hq as <-. simpl.
      rewrite HPkids. simpl. lia.
    + rewrite Hoth in Hq by done.
      subst w1 r. rewrite (new_retranslators_in w P p HP) by by eapply Hkids.
      by eapply Hone.
Qed.

End HubInvariant.

(** ** The hub: attaching and dispatching *)

Section Attach.

Lemma first_Retranslator_Some w cs r :
  first_Retranslator w cs = Some r →
  r ∈ cs ∧ qobject_cast_Retranslator w r = Some r.
Proof.
  induction cs as [|c cs IH]; [done|]. cbn [first_Retranslator].
  destruct (qobject_cast_Retranslator w c) as [r'|] eqn:Hc.
  - intros [= ->]. apply cast_Some in Hc as Hc'. destruct Hc' as [-> _].
    split; [by left|done].
  - intros [Hin Hr]%IH. split; [by right|done].
Qed.

Lemma retranslatorFor_trace w P r w1 :
  retranslatorFor P w = Some (r, w1) →
  trace w1 = trace w ∧ funcs_of w1 r = funcs_of w r
  ∧ qobject_cast_Retranslator w1 r = Some r
  ∧ s_translatorLocaleName w1 = s_translatorLocaleName w.
Proof.
  unfold retranslatorFor.
  destruct (objects w !! P) as [p|] eqn:HP; [|done].
  destruct (first_Retranslator w (children p)) as [r'|] eqn:Hf.
  - intros [= -> ->]. by apply first_Retranslator_Some in Hf as [_ ?].
  - intros Heq.
    assert (r = fresh (dom (objects w)) ∧ w1 = snd (Retranslator_new P w))
      as [-> ->] by (by injection Heq as <- <-).
    split_and!; [done| |by eapply new_cast_r|done].
    unfold funcs_of.
    by rewrite (new_lookup_r w P p HP), fresh_object_not_live.
Qed.

Lemma retranslatorFor_twice w P r w1 :
  retranslatorFor P w = Some (r, w1) → retranslatorFor P w1 = Some (r, w1).
Proof.
  unfold retranslatorFor at 1.
  destruct (objects w !! P) as [p|] eqn:HP; [|done].
  destruct (first_Retranslator w (children p)) as [r'|] eqn:Hf.
  - intros [= -> ->]. by eapply retranslatorFor_found.
  - intros Heq.
    assert (r = fresh (dom (objects w)) ∧ w1 = snd (Retranslator_new P w))
      as [-> ->] by (by injection Heq as <- <-).
    eapply retranslatorFor_found; [by eapply new_lookup_P|].
    cbn [children installEventFilter add_child]. by eapply new_first.
Qed.

Lemma retranslatorFor_total w P p :
  objects w !! P = Some p → ∃ r w1, retranslatorFor P w = Some (r, w1).
Proof.
  intros HP. unfold retranslatorFor. rewrite HP.
  destruct (first_Retranslator w (children p)); [by eauto|].
  destruct (Retranslator_new P w). by eauto.
Qed.

(** Appending a callback changes the list of one Retranslator only. *)
Section Append.

Variables (w1 : World) (r : ObjId) (f : Callback).
Hypothesis Hr : qobject_cast_Retranslator w1 r = Some r.

Local Abbreviation w' :=
  (emit (EvCall f) (set_objects (alter (append_func f) r) w1)).

Lemma append_lookup x :
  objects w' !! x
  = (if decide (r = x) then append_func f else id) <$> objects w1 !! x.
Proof.
  simpl. rewrite lookup_alter. case_decide; [by subst|].
  by destruct (objects w1 !! x).
Qed.

Lemma append_func_fields o :
  parent (append_func f o) = parent o
  ∧ children (append_func f o) = children o
  ∧ eventFilters (append_func f o) = eventFilters o.
Proof. unfold append_func. by destruct (kind o). Qed.

Lemma append_cast x :
  qobject_cast_Retranslator w' x = qobject_cast_Retranslator w1 x.
Proof.
  unfold qobject_cast_Retranslator. rewrite append_lookup.
  destruct (objects w1 !! x) as [o|]; [|done]. simpl.
  case_decide; [|done]. unfold append_func.
  destruct (kind o) eqn:Hk; simpl; by rewrite ?Hk.
Qed.

Lemma append_first cs :
  first_Retranslator w' cs = first_Retranslator w1 cs.
Proof.
  induction cs as [|c cs IH]; [done|]. cbn [first_Retranslator].
  by rewrite append_cast, IH.
Qed.

Lemma append_funcs : funcs_of w' r = funcs_of w1 r ++ [f].
Proof.
  destruct (proj1 (cast_Some _ _ _) Hr) as [_ (o & fs & Ho & Hk)].
  unfold funcs_of. rewrite append_lookup, Ho, decide_True by done.
  simpl. unfold append_func. rewrite Hk. simpl. done.
Qed.

Lemma append_retranslatorFor P :
  retranslatorFor P w1 = Some (r, w1) → retranslatorFor P w' = Some (r, w').
Proof.
  unfold retranslatorFor. rewrite append_lookup.
  destruct (objects w1 !! P) as [p|]; [|done]. cbn [fmap option_fmap option_map].
  assert (Hkids : children ((if decide (r = P) then append_func f else id) p)
                  = children p).
  { case_decide; [apply append_func_fields|done]. }
  rewrite Hkids, append_first.
  destruct (first_Retranslator w1 (children p)); [by intros [= ->]|].
  intros [= Hfr Hw]. exfalso.
  destruct (proj1 (cast_Some _ _ _) Hr) as [_ (o & fs & Ho & _)].
  rewrite <-Hfr, fresh_object_not_live in Ho. done.
Qed.

Lemma append_hub_inv : hub_inv w1 → hub_inv w'.
Proof.
  intros [Hch Hone]. split.
  - intros q o c. rewrite append_lookup.
    destruct (objects w1 !! q) as [oq|] eqn:Hq; [|done].
    intros [= <-] Hc.
    assert (c ∈ children oq) as Hc'.
    { revert Hc. case_decide; [|done].
      by destruct (append_func_fields oq) as (_ & -> & _). }
    destruct (Hch q oq c Hq Hc') as (co & Hco & Hpar).
    rewrite append_lookup, Hco. eexists. split; [done|].
    clear Hc. case_decide; [|done].
    by destruct (append_func_fields co) as (-> & _ & _).
  - intros q o. rewrite append_lookup.
    destruct (objects w1 !! q) as [oq|] eqn:Hq; [|done].
    intros [= <-].
    assert (children ((if decide (r = q) then append_func f else id) oq)
            = children oq) as ->.
    { case_decide; [apply append_func_fields|done]. }
    unfold retranslators_in.
    erewrite list_omap_ext; [by apply (Hone q oq)|].
    apply Forall2_same_length_lookup. split; [done|].
    intros i x y Hx Hy. assert (x = y) as <- by congruence.
    apply append_cast.
Qed.

End Append.

Lemma attach_spec w P p f :
  objects w !! P = Some p →
  ∃ r w1 w',
    retranslatorFor P w = Some (r, w1)
    ∧ attachRetranslator P f w = Some w'
    ∧ w' = emit (EvCall f) (set_objects (alter (append_func f) r) w1)
    ∧ trace w' = trace w ++ [EvCall f]
    ∧ funcs_of w' r = funcs_of w r ++ [f]
    ∧ retranslatorFor P w' = Some (r, w')
    ∧ qobject_cast_Retranslator w1 r = Some r.
Proof.
  intros HP.
  destruct (retranslatorFor_total w P p HP) as (r & w1 & Hrf).
  destruct (retranslatorFor_trace w P r w1 Hrf) as (Htr & Hfs & Hcast & _).
  exists r, w1. eexists. split_and!; try done.
  - unfold attachRetranslator. by rewrite Hrf.
  - simpl. by rewrite Htr.
  - by rewrite append_funcs, Hfs.
  - apply append_retranslatorFor; [done|]. by eapply retranslatorFor_twice.
Qed.

End Attach.

Section Dispatch.

Lemma retranslatorFor_hub_inv w P p r w1 :
  objects w !! P = Some p →
  retranslatorFor P w = Some (r, w1) →
  hub_inv w →
  hub_inv w1
  ∧ ∃ p1, objects w1 !! P = Some p1 ∧ retranslators_in w1 (children p1) = [r].
Proof.
  intros HP. unfold retranslatorFor. rewrite HP.
  destruct (first_Retranslator w (children p)) as [r'|] eqn:Hf.
  - intros [= -> <-] Hinv. split; [done|]. exists p. split; [done|].
    rewrite first_Retranslator_head in Hf.
    pose proof (hi_one w Hinv P p HP) as Hlen.
    destruct (retranslators_in w (children p)) as [|x [|y l]];
      simpl in *; [done| |lia].
    by injection Hf as ->.
  - intros Heq Hinv.
    assert (r = fresh (dom (objects w)) ∧ w1 = snd (Retranslator_new P w))
      as [-> ->] by (by injection Heq as <- <-).
    destruct (new_hub_inv w P p HP Hf Hinv) as [Hinv1 Hkids].
    split; [done|]. eexists. split; [by eapply new_lookup_P|done].
Qed.

Lemma call_all_trace fs w :
  trace (call_all fs w) = trace w ++ (EvCall <$> fs)
  ∧ objects (call_all fs w) = objects w
  ∧ s_translatorLocaleName (call_all fs w) = s_translatorLocaleName w.
Proof.
  revert w; induction fs as [|f fs IH]; intros w.
  - simpl. by rewrite app_nil_r.
  - unfold call_all in *. cbn [foldl].
    destruct (IH (emit (EvCall f) w)) as (-> & -> & ->).
    simpl. by rewrite <-app_assoc.
Qed.

Lemma eventFilter_spec w this o fs obj e :
  objects w !! this = Some o → kind o = RetranslatorObject fs →
  eventFilter this obj e w
  = Some (false,
          if bool_decide (Some obj = parent o) && bool_decide (e = LanguageChange)
          then emit (EvEmit this) (call_all fs w) else w).
Proof.
  intros Ho Hk. unfold eventFilter. rewrite Ho, Hk.
  by repeat case_bool_decide.
Qed.

Lemma attach_all_spec P fs : ∀ w p r,
  objects w !! P = Some p →
  retranslatorFor P w = Some (r, w) →
  ∃ wa, attach_all P fs w = Some wa
        ∧ is_Some (objects wa !! P)
        ∧ retranslatorFor P wa = Some (r, wa)
        ∧ funcs_of wa r = funcs_of w r ++ fs
        ∧ trace wa = trace w ++ (EvCall <$> fs)
        ∧ (hub_inv w → hub_inv wa).
Proof.
  induction fs as [|f fs IH]; intros w p r HP Hrf.
  - exists w. simpl. rewrite !app_nil_r. by split_and!.
  - destruct (attach_spec w P p f HP)
      as (r' & w1 & w' & Hrf' & Hat & Hw' & Htr & Hfs & Hrf'' & Hcast).
    assert (r' = r ∧ w1 = w) as [-> ->] by (split; congruence).
    assert (is_Some (objects w' !! P)) as [p' HP'].
    { rewrite Hw', append_lookup, HP by done. by eexists. }
    destruct (IH w' p' r HP' Hrf'') as (wa & Hall & HPa & Hrfa & Hfsa & Htra & Hinva).
    exists wa. cbn [attach_all]. rewrite Hat.
    split_and!; try done.
    + by rewrite Hfsa, Hfs, <-app_assoc.
    + rewrite Htra, Htr, <-app_assoc. done.
    + intros Hinv. apply Hinva. rewrite Hw'. by apply append_hub_inv.
Qed.

Lemma hub_call_name c w w' :
  hub_call c w = Some w' →
  s_translatorLocaleName w' = s_translatorLocaleName w.
Proof.
  destruct c as [P|P f|this obj e]; simpl.
  - destruct (retranslatorFor P w) as [[r w1]|] eqn:Hrf; [|done].
    intros [= <-]. by apply retranslatorFor_trace in Hrf as (_ & _ & _ & ?).
  - unfold attachRetranslator.
    destruct (retranslatorFor P w) as [[r w1]|] eqn:Hrf; [|done].
    intros [= <-]. by apply retranslatorFor_trace in Hrf as (_ & _ & _ & ?).
  - unfold eventFilter.
    destruct (objects w !! this) as [o|]; [|done].
    destruct (kind o) as [|fs]; [done|].
    intros [= <-]. repeat case_bool_decide; try done.
    simpl. apply call_all_trace.
Qed.

End Dispatch.

Section ClaimsSupport.

Lemma retranslatorFor_fix w P r :
  retranslatorFor P w = Some (r, w) →
  ∃ p, objects w !! P = Some p ∧ first_Retranslator w (children p) = Some r.
Proof.
  unfold retranslatorFor.
  destruct (objects w !! P) as [p|] eqn:HP; [|done].
  destruct (first_Retranslator w (children p)) as [r'|] eqn:Hf.
  - intros [= ->]. by exists p.
  - intros Heq. exfalso.
    assert (w = snd (Retranslator_new P w)) as Hw by (by injection Heq).
    pose proof (new_lookup_r w P p HP) as Hr.
    rewrite <-Hw, fresh_object_not_live in Hr. done.
Qed.

Lemma loadSingletonTranslator_name h loader slot w :
  s_translatorLocaleName (exec (loadSingletonTranslator h loader slot) w)
  = s_translatorLocaleName w.
Proof.
  rewrite loadSingletonTranslator_eq. cbv zeta.
  set (w0 := emit (EvNew _) _).
  pose proof (ls_name _ _ _ (tryLoad_step h loader (fresh (dom (translators w))) w0))
    as Hname.
  destruct (get_slot slot _); destruct slot; simpl; by rewrite Hname.
Qed.

Lemma hub_calls_name cs : ∀ w w',
  hub_calls cs w = Some w' →
  s_translatorLocaleName w' = s_translatorLocaleName w.
Proof.
  induction cs as [|c cs IH]; intros w w'; simpl.
  - by intros [= ->].
  - destruct (hub_call c w) as [w1|] eqn:Hc; [|done].
    intros Hcs. rewrite (IH _ _ Hcs). by eapply hub_call_name.
Qed.

End ClaimsSupport.

(** C5.  [retranslatorFor] is idempotent.  On a live parent it returns a
    Retranslator, and a second call returns the same object and leaves the
    world as the first call left it.  The object is a child of the parent;
    when the parent had no Retranslator child, it is a newly allocated
    object, made the last child of the parent and installed as its event
    filter; when it had one, the first such child is returned and nothing
    changes.  In a well-formed object graph the parent then has exactly
    one Retranslator among its children, and no object has two. *)
Theorem retranslatorFor_idempotent (w : World) (P : ObjId) (p : QObject) :
  objects w !! P = Some p →
  ∃ r w1 p1,
    retranslatorFor P w = Some (r, w1)
    ∧ retranslatorFor P w1 = Some (r, w1)
    ∧ objects w1 !! P = Some p1
    ∧ r ∈ children p1
    ∧ qobject_cast_Retranslator w1 r = Some r
    ∧ (first_Retranslator w (children p) = None →
         objects w !! r = None
         ∧ objects w1 !! r
           = Some (mkQObject (Some P) [] [] (RetranslatorObject []))
         ∧ children p1 = children p ++ [r]
         ∧ eventFilters p1 = r :: filter (λ x, x ≠ r) (eventFilters p))
    ∧ (∀ r0, first_Retranslator w (children p) = Some r0 → r = r0 ∧ w1 = w)
    ∧ (hub_inv w → hub_inv w1 ∧ retranslators_in w1 (children p1) = [r]).
Proof.
  intros HP.
  destruct (retranslatorFor_total w P p HP) as (r & w1 & Hrf).
  pose proof (retranslatorFor_twice w P r w1 Hrf) as Hrf2.
  destruct (retranslatorFor_fix w1 P r Hrf2) as (p1 & HP1 & Hf1).
  destruct (first_Retranslator_Some w1 (children p1) r Hf1) as [Hin Hcast].
  exists r, w1, p1. split_and!; try done.
  - intros Hnone.
    rewrite (retranslatorFor_created w P p HP Hnone) in Hrf.
    assert (r = fresh (dom (objects w)) ∧ w1 = snd (Retranslator_new P w))
      as [-> ->] by (by injection Hrf as <- <-).
    rewrite (new_lookup_P w P p HP) in HP1. injection HP1 as <-.
    split_and!; [apply fresh_object_not_live|by eapply new_lookup_r|done..].
  - intros r0 Hsome.
    rewrite (retranslatorFor_found w P p r0 HP Hsome) in Hrf.
    by injection Hrf as <- <-.
  - intros Hinv.
    destruct (retranslatorFor_hub_inv w P p r w1 HP Hrf Hinv)
      as (Hinv1 & p1' & HP1' & Hkids).
    split; [done|]. congruence.
Qed.

Lemma retranslatorFor_idempotent_witness :
  ∃ r w1, retranslatorFor 0 widget_world = Some (r, w1)
          ∧ retranslatorFor 0 w1 = Some (r, w1).
Proof.
  destruct (retranslatorFor_idempotent widget_world 0
              (mkQObject None [] [] PlainQObject) eq_refl)
    as (r & w1 & p1 & H1 & H2 & _).
  exists r, w1. by split.
Defined.

(** C8.  [attachRetranslator( P, f )] on a live parent runs [f] exactly
    once before it returns (the call of [f] is the one event it adds to the
    trace) and appends [f] to the callback list of the Retranslator of [P];
    no other object changes. *)
Theorem attachRetranslator_invokes_once
    (w : World) (P : ObjId) (p : QObject) (f : Callback) :
  objects w !! P = Some p →
  ∃ r w1 w',
    retranslatorFor P w = Some (r, w1)
    ∧ attachRetranslator P f w = Some w'
    ∧ trace w' = trace w ++ [EvCall f]
    ∧ funcs_of w' r = funcs_of w r ++ [f]
    ∧ retranslatorFor P w' = Some (r, w')
    ∧ (∀ x, x ≠ r → objects w' !! x = objects w1 !! x).
Proof.
  intros HP.
  destruct (attach_spec w P p f HP)
    as (r & w1 & w' & Hrf & Hat & Hw' & Htr & Hfs & Hrf' & Hcast).
  exists r, w1, w'. split_and!; try done.
  intros x Hx. rewrite Hw', append_lookup, decide_False by done.
  by destruct (objects w1 !! x).
Qed.

Lemma attachRetranslator_invokes_once_witness :
  ∃ w', attachRetranslator 0 "retranslate" widget_world = Some w'
        ∧ trace w' = [EvCall "retranslate"].
Proof.
  destruct (attachRetranslator_invokes_once widget_world 0
              (mkQObject None [] [] PlainQObject) "retranslate" eq_refl)
    as (r & w1 & w' & _ & Hat & Htr & _).
  exists w'. by split.
Defined.

(** C3.  [eventFilter] of a Retranslator with callback list [fs].  For
    every object and event the result is that of [QObject::eventFilter],
    which is [false]: the event is not consumed.  When the object is the
    parent of the Retranslator and the event is a LanguageChange, the
    callbacks of [fs] are called, each once, in list order, and then
    [languageChange] is emitted once; nothing else happens.  For any other
    object or any other event the world does not change at all.

    The list is the registration order: after [f :: fs] were attached to a
    parent [P] of a well-formed graph, a LanguageChange delivered to [P]
    calls the callbacks [P] had before, then [f], then those of [fs], and
    then emits [languageChange] once. *)
Theorem eventFilter_dispatch :
  (∀ w this o fs obj e,
     objects w !! this = Some o → kind o = RetranslatorObject fs →
     ∃ w', eventFilter this obj e w = Some (QObject_eventFilter obj e, w')
           ∧ QObject_eventFilter obj e = false
           ∧ (parent o = Some obj → e = LanguageChange →
                trace w' = trace w ++ (EvCall <$> fs) ++ [EvEmit this]
                ∧ objects w' = objects w)
           ∧ (parent o ≠ Some obj ∨ e ≠ LanguageChange → w' = w))
  ∧ (∀ w P p f fs,
       objects w !! P = Some p → hub_inv w →
       ∃ r wa w',
         attach_all P (f :: fs) w = Some wa
         ∧ retranslatorFor P wa = Some (r, wa)
         ∧ funcs_of wa r = funcs_of w r ++ f :: fs
         ∧ eventFilter r P LanguageChange wa = Some (false, w')
         ∧ trace w' = trace wa ++ (EvCall <$> (funcs_of w r ++ f :: fs))
                      ++ [EvEmit r]).
Proof.
  split.
  - intros w this o fs obj e Ho Hk.
    rewrite (eventFilter_spec w this o fs obj e Ho Hk).
    eexists. split_and!; [done..| |].
    + intros Hpar ->.
      rewrite !bool_decide_eq_true_2 by done. simpl.
      destruct (call_all_trace fs w) as (-> & -> & _).
      by rewrite <-app_assoc.
    + intros [Hpar| He].
      * rewrite (bool_decide_eq_false_2 (Some obj = parent o)) by done. done.
      * rewrite (bool_decide_eq_false_2 (e = LanguageChange)) by done.
        by rewrite andb_false_r.
  - intros w P p f fs HP Hinv.
    destruct (attach_spec w P p f HP)
      as (r & w1 & w' & Hrf & Hat & Hw' & Htr & Hfs & Hrf' & Hcast).
    destruct (retranslatorFor_hub_inv w P p r w1 HP Hrf Hinv) as [Hinv1 _].
    assert (Hinv' : hub_inv w').
    { rewrite Hw'. by apply append_hub_inv. }
    destruct (retranslatorFor_fix w' P r Hrf') as (p' & HP' & _).
    destruct (attach_all_spec P fs w' p' r HP' Hrf')
      as (wa & Hall & _ & Hrfa & Hfsa & Htra & Hinva).
    specialize (Hinva Hinv').
    destruct (retranslatorFor_fix wa P r Hrfa) as (pa & HPa & Hfa).
    destruct (first_Retranslator_Some wa (children pa) r Hfa) as [Hin Hca].
    destruct (hi_children wa Hinva P pa r HPa Hin) as (ro & Hro & Hpar).
    assert (Hk : kind ro = RetranslatorObject (funcs_of wa r)).
    { apply cast_Some in Hca as [_ (o & fs' & Ho & Hk)].
      unfold funcs_of. rewrite Ho, Hk.
      rewrite Ho in Hro. by injection Hro as <-. }
    assert (Hfuncs : funcs_of wa r = funcs_of w r ++ f :: fs).
    { rewrite Hfsa, Hfs, <-app_assoc. done. }
    exists r, wa. eexists. split_and!.
    + cbn [attach_all]. by rewrite Hat.
    + done.
    + done.
    + rewrite (eventFilter_spec wa r ro _ P LanguageChange Hro Hk).
      rewrite !bool_decide_eq_true_2 by done. reflexivity.
    + simpl. destruct (call_all_trace (funcs_of wa r) wa) as (-> & _ & _).
      by rewrite Hfuncs, <-app_assoc.
Qed.

Lemma eventFilter_dispatch_witness :
  ∃ wa w', attach_all 0 ["A"; "B"; "C"] widget_world = Some wa
           ∧ eventFilter 1 0 LanguageChange wa = Some (false, w')
           ∧ trace w' = [EvCall "A"; EvCall "B"; EvCall "C";
                         EvCall "A"; EvCall "B"; EvCall "C"; EvEmit 1].
Proof.
  destruct (proj2 eventFilter_dispatch widget_world 0
              (mkQObject None [] [] PlainQObject) "A" ["B"; "C"] eq_refl)
    as (r & wa & w' & Hat & Hrf & Hfs & Hev & Htr).
  { split.
    - intros q o c Hq Hc. destruct (decide (q = 0)) as [->|Hne].
      + simpl in Hq. rewrite lookup_singleton_eq in Hq. injection Hq as <-.
        by apply elem_of_nil in Hc.
      + simpl in Hq. by rewrite lookup_singleton_ne in Hq.
    - intros q o Hq. destruct (decide (q = 0)) as [->|Hne].
      + simpl in Hq. rewrite lookup_singleton_eq in Hq. injection Hq as <-.
        simpl. lia.
      + simpl in Hq. by rewrite lookup_singleton_ne in Hq. }
  pose proof Hat as Hwa. vm_compute in Hwa. injection Hwa as Hwa.
  rewrite <-Hwa in Hrf. vm_compute in Hrf. injection Hrf as Hr. subst r.
  exists wa, w'. split_and!; [exact Hat|exact Hev|].
  rewrite Htr, <-Hwa. reflexivity.
Defined.

(** C10.  Before the first [installTranslator], [translatorLocaleName()]
    is the empty string: the static is default-initialised, and no call
    into the hub ([retranslatorFor], [attachRetranslator], [eventFilter])
    writes it; nor does [loadSingletonTranslator] on its own. *)
Theorem translatorLocaleName_initially_empty
    (ht : gmap nat QTranslator) (hs : list TrId) (ho : gmap nat QObject)
    (cs : list HubCall) (w : World) :
  hub_calls cs (initial_world ht hs ho) = Some w →
  eval translatorLocaleName w = ""
  ∧ (∀ h loader slot,
       eval translatorLocaleName (exec (loadSingletonTranslator h loader slot) w)
       = "").
Proof.
  intros Hcs. apply hub_calls_name in Hcs. simpl in Hcs.
  split; [done|].
  intros h loader slot. unfold translatorLocaleName, eval, gets; simpl.
  by rewrite loadSingletonTranslator_name.
Qed.

Lemma translatorLocaleName_initially_empty_witness :
  ∃ w, hub_calls [CallAttach 0 "A"; CallEventFilter 1 0 LanguageChange;
                  CallRetranslatorFor 0] widget_world = Some w
       ∧ eval translatorLocaleName w = "".
Proof.
  destruct (hub_calls [CallAttach 0 "A"; CallEventFilter 1 0 LanguageChange;
                       CallRetranslatorFor 0] widget_world) as [w|] eqn:Hcs.
  - exists w. split; [done|].
    exact (proj1 (translatorLocaleName_initially_empty _ _ _ _ w Hcs)).
  - vm_compute in Hcs. discriminate Hcs.
Defined.

(** * Further properties of the loaders *)

Section MoreLoaderFacts.

Variable h : Host.

Lemma lastIndexOf_from_absent k c s :
  QString.contains c s = false → QString.lastIndexOf_from k c s = (-1)%Z.
Proof.
  revert k; induction s as [|d s IH]; intros k; simpl; [done|].
  intros [Hd Hs]%orb_false_elim. by rewrite (IH _ Hs), Hd.
Qed.

Lemma string_length_app a b :
  String.length (a +:+ b) = String.length a + String.length b.
Proof. induction a as [|d a IH]; simpl; [done|by rewrite IH]. Qed.

Lemma lastIndexOf_from_split k c a b :
  (0 ≤ k)%Z → QString.contains c b = false →
  QString.lastIndexOf_from k c (a +:+ String c b)
  = (k + Z.of_nat (String.length a))%Z.
Proof.
  revert k; induction a as [|d a IH]; intros k Hk Hb; simpl.
  - rewrite (lastIndexOf_from_absent _ _ _ Hb). simpl.
    rewrite Ascii.eqb_refl. lia.
  - rewrite IH by (done || lia).
    destruct (Z.leb_spec 0 (k + 1 + Z.of_nat (String.length a))); lia.
Qed.

Lemma substring_all s : String.substring 0 (String.length s) s = s.
Proof. induction s as [|d s IH]; simpl; [done|by rewrite IH]. Qed.

Lemma substring_head a b :
  String.substring 0 (String.length a) (a +:+ b) = a.
Proof.
  induction a as [|d a IH]; simpl; [by destruct b|]. by rewrite IH.
Qed.

Lemma substring_tail a b :
  String.substring (String.length a) (String.length b) (a +:+ b) = b.
Proof. induction a as [|d a IH]; simpl; [apply substring_all|done]. Qed.

(** The two string operations of [BrandingLoader::tryLoad] cut the prefix
    at its last separator. *)
Lemma prefix_split c a b :
  QString.contains c b = false →
  QString.truncate (QString.lastIndexOf c (a +:+ String c b)) (a +:+ String c b)
  = a
  ∧ QString.remove 0 (QString.lastIndexOf c (a +:+ String c b) + 1)
                   (a +:+ String c b)
    = b.
Proof.
  intros Hb. unfold QString.lastIndexOf.
  rewrite lastIndexOf_from_split, Z.add_0_l by done.
  unfold QString.truncate, QString.remove, QString.size.
  rewrite string_length_app. cbn [String.length].
  set (n := String.length a). set (m := String.length b).
  split.
  - rewrite (proj2 (Z.ltb_lt _ _)) by lia.
    rewrite Z.max_r, Nat2Z.id by lia. apply substring_head.
  - cbv zeta. change (0 <? 0)%Z with false. cbv iota.
    rewrite (proj2 (Z.leb_gt (Z.of_nat (n + S m)) 0)) by lia.
    cbn [orb]. change (Z.to_nat 0) with 0.
    destruct (Z.leb_spec (Z.of_nat (n + S m) - 0) (Z.of_nat n + 1)) as [Hle|Hgt].
    + assert (m = 0) as Hm by lia. subst m.
      destruct b; [by destruct (a +:+ String c "")|simpl in Hm; lia].
    + rewrite (proj2 (Z.ltb_lt 0 (Z.of_nat n + 1))) by lia.
      replace (Z.to_nat (0 + (Z.of_nat n + 1)))
        with (String.length (a +:+ String c ""))
        by (rewrite string_length_app; simpl; lia).
      replace (Z.to_nat (Z.of_nat (n + S m) - 0 - (Z.of_nat n + 1)))
        with (String.length b) by lia.
      change ((0 <? 0)%Z || false) with false. cbv iota.
      replace (a +:+ String c b) with ((a +:+ String c "") +:+ b).
      * rewrite substring_tail. by destruct ((a +:+ String c "") +:+ b).
      * clear. induction a as [|d a IH]; [reflexivity|].
        change (String d ((a +:+ String c "") +:+ b) = String d (a +:+ String c b)).
        by f_equal.
Qed.

Lemma prefix_no_separator c s :
  QString.contains c s = false →
  QString.truncate (QString.lastIndexOf c s) s = ""
  ∧ QString.remove 0 (QString.lastIndexOf c s + 1) s = s.
Proof.
  intros Hs. unfold QString.lastIndexOf.
  rewrite (lastIndexOf_from_absent _ _ _ Hs).
  unfold QString.truncate, QString.remove, QString.size. split.
  - destruct (Z.ltb_spec (-1) (Z.of_nat (String.length s))); [|lia].
    by destruct s.
  - destruct s as [|d s]; [reflexivity|].
    cbv zeta. change (-1 + 1)%Z with 0%Z. change (0 <? 0)%Z with false.
    cbv iota. cbn [orb String.length].
    rewrite (proj2 (Z.leb_gt (Z.of_nat (S (String.length s))) 0)) by lia.
    rewrite (proj2 (Z.leb_gt (Z.of_nat (S (String.length s)) - 0) 0)) by lia.
    done.
Qed.

End MoreLoaderFacts.

(** X1.  The munged name of a locale never contains a dash, and it is never
    the placeholder "C". *)
Theorem mungeLocaleName_no_dash (locale : QLocale) :
  QString.contains "-" (mungeLocaleName locale) = false
  ∧ mungeLocaleName locale ≠ "C".
Proof.
  unfold mungeLocaleName.
  destruct (is_serbian_latin locale); [by split|].
  destruct (String.eqb_spec (QString.replace "-" "_" (name locale)) "C")
    as [HC|HC]; [by split|].
  split; [|done]. by apply replace_removes.
Qed.

(** X2.  [TZLoader::tryLoad] first tries [:/lang/tz_<munged name>].  When
    that load succeeds the result is [true] and nothing else is attempted;
    when it fails there is exactly one more attempt, at [:/lang/tz_en], and
    its outcome is the result. *)
Theorem TZLoader_tryLoad_fallback
    (h : Host) (locale : QLocale) (translator : TrId) (w : World) :
  let primary := ":/lang/tz_" +:+ mungeLocaleName locale in
  let fallback := ":/lang/tz_en" in
  let result := tryLoad h (TZLoader_new locale) translator w in
  fst result = (if load_file h primary then true else load_file h fallback)
  ∧ trace (snd result)
    = trace w ++
      (if load_file h primary
       then [EvLoad translator primary true;
             EvDebug "Calamares Timezones using locale:"
                     (mungeLocaleName locale)]
       else [EvLoad translator primary false;
             EvDebug "Calamares Timezones using default, system locale not found:"
                     (mungeLocaleName locale);
             EvLoad translator fallback (load_file h fallback)])
  ∧ load_attempts (drop (length (trace w)) (trace (snd result)))
    = (if load_file h primary then [primary] else [primary; fallback]).
Proof.
  intros primary fallback result.
  assert (Hres : fst result
                 = (if load_file h primary then true else load_file h fallback)
    ∧ trace (snd result)
      = trace w ++
        (if load_file h primary
         then [EvLoad translator primary true;
               EvDebug "Calamares Timezones using locale:"
                       (mungeLocaleName locale)]
         else [EvLoad translator primary false;
               EvDebug "Calamares Timezones using default, system locale not found:"
                       (mungeLocaleName locale);
               EvLoad translator fallback (load_file h fallback)])).
  { subst result. simpl.
    unfold TZLoader_tryLoad, bind, QTranslator_load; simpl.
    fold primary. destruct (load_file h primary); simpl;
      by rewrite <-!app_assoc. }
  destruct Hres as [Hfst Htrace]. split_and!; [done..|].
  rewrite Htrace, drop_app_length. by destruct (load_file h primary).
Qed.

Section BrandingCases.

Variable h : Host.

(** [BrandingLoader::tryLoad] on a prefix that is not empty, in terms of the
    two pieces the source cuts the prefix into. *)
Lemma BrandingLoader_tryLoad_cases locale prefix t w :
  QString.isEmpty prefix = false →
  let dir := QString.truncate (QString.lastIndexOf (separator h) prefix) prefix in
  let base := QString.remove 0 (QString.lastIndexOf (separator h) prefix + 1)
                             prefix in
  let abs := dir_absolutePath h dir in
  let name := mungeLocaleName locale in
  let result := tryLoad h (BrandingLoader_new locale prefix) t w in
  fst result
  = (if dir_exists h dir
     then if load_locale h locale base "_" abs then true
          else load_file h (prefix +:+ "en")
     else false)
  ∧ trace (snd result)
    = trace w ++
      (if dir_exists h dir
       then if load_locale h locale base "_" abs
            then [EvDirExists dir true;
                  EvLoadLocale t locale base "_" abs true;
                  EvDebug "Branding using locale:" name]
            else [EvDirExists dir true;
                  EvLoadLocale t locale base "_" abs false;
                  EvDebug "Branding using default, system locale not found:"
                          name;
                  EvLoad t (prefix +:+ "en") (load_file h (prefix +:+ "en"))]
       else [EvDirExists dir false])
  ∧ (if dir_exists h dir then True
     else snd result = emit (EvDirExists dir false) w).
Proof.
  intros Hne dir base abs name result. subst result. simpl.
  unfold BrandingLoader_tryLoad. rewrite Hne.
  unfold bind, QDir_exists, QTranslator_load_locale, QTranslator_load; simpl.
  fold dir. destruct (dir_exists h dir); simpl; [|done].
  fold base abs. destruct (load_locale h locale base "_" abs); simpl;
    by rewrite <-!app_assoc.
Qed.

Lemma isEmpty_split a c b : QString.isEmpty (a +:+ String c b) = false.
Proof. by destruct a. Qed.

Lemma isEmpty_false s : s ≠ "" → QString.isEmpty s = false.
Proof. by destruct s. Qed.

End BrandingCases.

(** X3.  [BrandingLoader::tryLoad] on a prefix [dir/base] whose last path
    component [base] has no separator: the directory tested is [dir]; when
    it does not exist the result is [false] and the test is the only thing
    that happened; when it exists the locale load is asked for [base] with
    the prefix "_" in the absolute path of [dir]; when that load fails the
    one further attempt is at the path made of the whole prefix followed by
    "en", and its outcome is the result. *)
Theorem BrandingLoader_tryLoad_split
    (h : Host) (locale : QLocale) (dir base : string)
    (t : TrId) (w : World) :
  QString.contains (separator h) base = false →
  let prefix := dir +:+ String (separator h) base in
  let abs := dir_absolutePath h dir in
  let name := mungeLocaleName locale in
  let result := tryLoad h (BrandingLoader_new locale prefix) t w in
  fst result
  = (if dir_exists h dir
     then if load_locale h locale base "_" abs then true
          else load_file h (prefix +:+ "en")
     else false)
  ∧ trace (snd result)
    = trace w ++
      (if dir_exists h dir
       then if load_locale h locale base "_" abs
            then [EvDirExists dir true;
                  EvLoadLocale t locale base "_" abs true;
                  EvDebug "Branding using locale:" name]
            else [EvDirExists dir true;
                  EvLoadLocale t locale base "_" abs false;
                  EvDebug "Branding using default, system locale not found:"
                          name;
                  EvLoad t (prefix +:+ "en") (load_file h (prefix +:+ "en"))]
       else [EvDirExists dir false])
  ∧ (if dir_exists h dir then True
     else snd result = emit (EvDirExists dir false) w).
Proof.
  intros Hbase prefix abs name result.
  pose proof (BrandingLoader_tryLoad_cases h locale prefix t w
                (isEmpty_split dir (separator h) base)) as Hcases.
  cbv zeta in Hcases.
  destruct (prefix_split (separator h) dir base Hbase) as [Hdir Hb].
  fold prefix in Hdir, Hb. rewrite Hdir, Hb in Hcases. exact Hcases.
Qed.

Lemma BrandingLoader_tryLoad_split_witness :
  fst (tryLoad bare_host (BrandingLoader_new fr "/usr/share/branding/calamares_")
               0 widget_world)
  = false
  ∧ trace (snd (tryLoad bare_host
                        (BrandingLoader_new fr "/usr/share/branding/calamares_")
                        0 widget_world))
    = [EvDirExists "/usr/share/branding" false].
Proof.
  pose proof (BrandingLoader_tryLoad_split bare_host fr "/usr/share/branding"
                "calamares_" 0 widget_world eq_refl) as (Hfst & Htr & _).
  split; [exact Hfst|exact Htr].
Defined.

(** X4.  [BrandingLoader::tryLoad] on a prefix that is not empty and has no
    separator at all: the directory tested has the empty path, and the
    file-name base handed to the locale load is the whole prefix. *)
Theorem BrandingLoader_tryLoad_no_separator
    (h : Host) (locale : QLocale) (prefix : string) (t : TrId) (w : World) :
  prefix ≠ "" →
  QString.contains (separator h) prefix = false →
  let abs := dir_absolutePath h "" in
  let name := mungeLocaleName locale in
  let result := tryLoad h (BrandingLoader_new locale prefix) t w in
  fst result
  = (if dir_exists h ""
     then if load_locale h locale prefix "_" abs then true
          else load_file h (prefix +:+ "en")
     else false)
  ∧ trace (snd result)
    = trace w ++
      (if dir_exists h ""
       then if load_locale h locale prefix "_" abs
            then [EvDirExists "" true;
                  EvLoadLocale t locale prefix "_" abs true;
                  EvDebug "Branding using locale:" name]
            else [EvDirExists "" true;
                  EvLoadLocale t locale prefix "_" abs false;
                  EvDebug "Branding using default, system locale not found:"
                          name;
                  EvLoad t (prefix +:+ "en") (load_file h (prefix +:+ "en"))]
       else [EvDirExists "" false]).
Proof.
  intros Hne Hsep abs name result.
  pose proof (BrandingLoader_tryLoad_cases h locale prefix t w
                (isEmpty_false prefix Hne)) as Hcases.
  cbv zeta in Hcases.
  destruct (prefix_no_separator (separator h) prefix Hsep) as [Hdir Hb].
  rewrite Hdir, Hb in Hcases. destruct Hcases as (Hfst & Htr & _).
  by split.
Qed.

Lemma BrandingLoader_tryLoad_no_separator_witness :
  fst (tryLoad en_only_host (BrandingLoader_new fr "branding_") 0 widget_world)
  = false
  ∧ trace (snd (tryLoad en_only_host (BrandingLoader_new fr "branding_")
                        0 widget_world))
    = [EvDirExists "" true;
       EvLoadLocale 0 fr "branding_" "_" "" false;
       EvDebug "Branding using default, system locale not found:" "fr";
       EvLoad 0 "branding_en" false].
Proof.
  refine (BrandingLoader_tryLoad_no_separator en_only_host fr "branding_"
            0 widget_world _ eq_refl).
  discriminate.
Defined.

(** X5.  [tryLoad] reports whether the translator it was given holds a
    catalog afterwards: on a live translator that is empty, as a newly
    allocated one is, the result of any of the three loaders is [true]
    exactly when the translator is not empty when [tryLoad] returns. *)
Theorem tryLoad_reports_contents
    (h : Host) (loader : Loader) (t : TrId) (w : World) :
  translators w !! t = Some (mkQTranslator EmptyCatalog) →
  ∃ c, translators (snd (tryLoad h loader t w)) !! t = Some (mkQTranslator c)
       ∧ (fst (tryLoad h loader t w) = true ↔ c ≠ EmptyCatalog).
Proof.
  intros Ht.
  destruct loader as [this prefix|this|this]; simpl.
  - unfold BrandingLoader_tryLoad.
    destruct (QString.isEmpty prefix); [by exists EmptyCatalog|].
    unfold bind, QDir_exists, QTranslator_load_locale, QTranslator_load; simpl.
    destruct (dir_exists h _); simpl; [|by exists EmptyCatalog].
    destruct (load_locale h _ _ _ _); simpl.
    + eexists. rewrite lookup_alter_eq, Ht. split; [done|]. by split.
    + destruct (load_file h _); simpl; eexists;
        rewrite !lookup_alter_eq, Ht; (split; [done|]); by split.
  - unfold CalamaresLoader_tryLoad, bind, QTranslator_load; simpl.
    destruct (load_file h (_ +:+ _)); simpl.
    + eexists. rewrite lookup_alter_eq, Ht. split; [done|]. by split.
    + destruct (load_file h _); simpl; eexists;
        rewrite !lookup_alter_eq, Ht; (split; [done|]); by split.
  - unfold TZLoader_tryLoad, bind, QTranslator_load; simpl.
    destruct (load_file h (_ +:+ _)); simpl.
    + eexists. rewrite lookup_alter_eq, Ht. split; [done|]. by split.
    + destruct (load_file h _); simpl; eexists;
        rewrite !lookup_alter_eq, Ht; (split; [done|]); by split.
Qed.

Lemma tryLoad_reports_contents_witness :
  ∃ c, translators (snd (tryLoad en_only_host (CalamaresLoader_new zz_ZZ) 7
                           (initial_world {[ 7 := mkQTranslator EmptyCatalog ]}
                                          [] ∅)))
         !! 7 = Some (mkQTranslator c)
       ∧ (fst (tryLoad en_only_host (CalamaresLoader_new zz_ZZ) 7
                 (initial_world {[ 7 := mkQTranslator EmptyCatalog ]} [] ∅))
          = true ↔ c ≠ EmptyCatalog).
Proof.
  apply (tryLoad_reports_contents en_only_host (CalamaresLoader_new zz_ZZ) 7).
  reflexivity.
Defined.

(** * Further properties of the registry *)

Section MoreRegistryFacts.

Variable h : Host.

(** What each loader leaves in an empty translator it was given. *)
Lemma CalamaresLoader_contents t w locale :
  translators w !! t = Some (mkQTranslator EmptyCatalog) →
  translators (snd (tryLoad h (CalamaresLoader_new locale) t w)) !! t
  = Some (mkQTranslator
            (if load_file h (":/lang/calamares_" +:+ mungeLocaleName locale)
             then FileCatalog (":/lang/calamares_" +:+ mungeLocaleName locale)
             else if load_file h ":/lang/calamares_en"
                  then FileCatalog ":/lang/calamares_en"
                  else EmptyCatalog)).
Proof.
  intros Ht. simpl.
  unfold CalamaresLoader_tryLoad, bind, QTranslator_load; simpl.
  destruct (load_file h (_ +:+ _)); simpl;
    [by rewrite lookup_alter_eq, Ht|].
  destruct (load_file h _); simpl; by rewrite !lookup_alter_eq, Ht.
Qed.

Lemma TZLoader_contents t w locale :
  translators w !! t = Some (mkQTranslator EmptyCatalog) →
  translators (snd (tryLoad h (TZLoader_new locale) t w)) !! t
  = Some (mkQTranslator
            (if load_file h (":/lang/tz_" +:+ mungeLocaleName locale)
             then FileCatalog (":/lang/tz_" +:+ mungeLocaleName locale)
             else if load_file h ":/lang/tz_en"
                  then FileCatalog ":/lang/tz_en"
                  else EmptyCatalog)).
Proof.
  intros Ht. simpl.
  unfold TZLoader_tryLoad, bind, QTranslator_load; simpl.
  destruct (load_file h (_ +:+ _)); simpl;
    [by rewrite lookup_alter_eq, Ht|].
  destruct (load_file h _); simpl; by rewrite !lookup_alter_eq, Ht.
Qed.

Lemma BrandingLoader_contents t w locale prefix :
  translators w !! t = Some (mkQTranslator EmptyCatalog) →
  let dir := QString.truncate (QString.lastIndexOf (separator h) prefix) prefix in
  let base := QString.remove 0 (QString.lastIndexOf (separator h) prefix + 1)
                             prefix in
  let abs := dir_absolutePath h dir in
  translators (snd (tryLoad h (BrandingLoader_new locale prefix) t w)) !! t
  = Some (mkQTranslator
            (if QString.isEmpty prefix then EmptyCatalog
             else if dir_exists h dir
                  then if load_locale h locale base "_" abs
                       then LocaleCatalog locale base "_" abs
                       else if load_file h (prefix +:+ "en")
                            then FileCatalog (prefix +:+ "en")
                            else EmptyCatalog
                  else EmptyCatalog)).
Proof.
  intros Ht dir base abs. simpl. unfold BrandingLoader_tryLoad.
  destruct (QString.isEmpty prefix); [done|].
  unfold bind, QDir_exists, QTranslator_load_locale, QTranslator_load; simpl.
  fold dir. destruct (dir_exists h dir); simpl; [|done].
  fold base abs. destruct (load_locale h locale base "_" abs); simpl;
    [by rewrite lookup_alter_eq, Ht|].
  destruct (load_file h _); simpl; by rewrite !lookup_alter_eq, Ht.
Qed.

(** The translator a swap allocates holds what [tryLoad] loaded into it. *)
Lemma swap_new_contents loader slot w :
  (∀ p, get_slot slot w = Some p → p ∈ dom (translators w)) →
  translators (exec (loadSingletonTranslator h loader slot) w)
    !! fresh (dom (translators w))
  = translators
      (snd (tryLoad h loader (fresh (dom (translators w)))
              (emit (EvNew (fresh (dom (translators w))))
                 (set_translators
                    (insert (fresh (dom (translators w)))
                            (mkQTranslator EmptyCatalog)) w))))
      !! fresh (dom (translators w)).
Proof.
  intros Hlive. rewrite loadSingletonTranslator_eq. cbv zeta.
  pose proof (fresh_translator_not_live w) as Hfresh.
  set (t := fresh (dom (translators w))) in *.
  set (w0 := emit (EvNew t) _).
  pose proof (tryLoad_step h loader t w0) as [_ _ Hsl _ _ _ _].
  unfold exec in *. set (w1 := snd (tryLoad h loader t w0)) in *.
  assert (Hslot : get_slot slot w1 = get_slot slot w).
  { rewrite Hsl. by destruct slot. }
  rewrite Hslot. destruct (get_slot slot w) as [p|] eqn:Hold.
  - assert (p ≠ t) by (intros ->; by apply Hfresh, Hlive).
    transitivity (delete p (translators w1) !! t); [by destruct slot|].
    by rewrite lookup_delete_ne.
  - by destruct slot.
Qed.

(** The three swaps of one [installTranslator]. *)
Lemma installTranslator_chain hs locale prefix parent_ w :
  registry_inv hs w →
  let w1 := exec (loadSingletonTranslator h (BrandingLoader_new locale prefix)
                    BrandingSlot) w in
  let w2 := exec (loadSingletonTranslator h (TZLoader_new locale) TzSlot) w1 in
  let w3 := exec (loadSingletonTranslator h (CalamaresLoader_new locale)
                    AppSlot) w2 in
  exec (installTranslator h locale prefix parent_) w
  = set_s_translatorLocaleName (mungeLocaleName locale) w3
  ∧ registry_inv hs w1 ∧ registry_inv hs w2 ∧ registry_inv hs w3
  ∧ swapped BrandingSlot w w1 ∧ swapped TzSlot w1 w2 ∧ swapped AppSlot w2 w3.
Proof.
  intros Hinv w1 w2 w3.
  assert (Hinv1 : registry_inv hs w1) by by apply loadSingletonTranslator_inv.
  assert (Hinv2 : registry_inv hs w2) by by apply loadSingletonTranslator_inv.
  assert (Hinv3 : registry_inv hs w3) by by apply loadSingletonTranslator_inv.
  split_and!; try done.
  - apply installTranslator_eq.
  - apply loadSingletonTranslator_swapped. intros p. apply Hinv.
  - apply loadSingletonTranslator_swapped. intros p. apply Hinv1.
  - apply loadSingletonTranslator_swapped. intros p. apply Hinv2.
Qed.

Lemma alloc_lookup (w : World) :
  translators
    (emit (EvNew (fresh (dom (translators w))))
       (set_translators
          (insert (fresh (dom (translators w))) (mkQTranslator EmptyCatalog)) w))
    !! fresh (dom (translators w))
  = Some (mkQTranslator EmptyCatalog).
Proof. simpl. apply lookup_insert_eq. Qed.

End MoreRegistryFacts.

(** X6.  What the slots hold when [installTranslator] returns, after any
    earlier calls: three live translators.  The one of the application
    slot holds the catalog of the locale when that loads, otherwise the
    English one when that loads, otherwise nothing; the same for the
    timezone slot; the one of the branding slot holds the locale's branding
    catalog, otherwise what is at the prefix followed by "en", otherwise
    nothing, and nothing when the prefix is empty or its directory does
    not exist. *)
Theorem installed_catalogs
    (h : Host) (ht : gmap nat QTranslator) (hs : list TrId)
    (ho : gmap nat QObject) (calls : list (QLocale * string * option ObjId))
    (locale : QLocale) (prefix : string) (parent_ : option ObjId) :
  (∀ t, t ∈ hs → t ∈ dom ht) →
  let w := exec (install_all h calls) (initial_world ht hs ho) in
  let w' := exec (installTranslator h locale prefix parent_) w in
  let dir := QString.truncate (QString.lastIndexOf (separator h) prefix) prefix in
  let base := QString.remove 0 (QString.lastIndexOf (separator h) prefix + 1)
                             prefix in
  let abs := dir_absolutePath h dir in
  ∃ tb tz ta,
    s_brandingTranslator w' = Some tb
    ∧ s_tztranslator w' = Some tz
    ∧ s_translator w' = Some ta
    ∧ translators w' !! ta
      = Some (mkQTranslator
                (if load_file h (":/lang/calamares_" +:+ mungeLocaleName locale)
                 then FileCatalog (":/lang/calamares_" +:+ mungeLocaleName locale)
                 else if load_file h ":/lang/calamares_en"
                      then FileCatalog ":/lang/calamares_en"
                      else EmptyCatalog))
    ∧ translators w' !! tz
      = Some (mkQTranslator
                (if load_file h (":/lang/tz_" +:+ mungeLocaleName locale)
                 then FileCatalog (":/lang/tz_" +:+ mungeLocaleName locale)
                 else if load_file h ":/lang/tz_en"
                      then FileCatalog ":/lang/tz_en"
                      else EmptyCatalog))
    ∧ translators w' !! tb
      = Some (mkQTranslator
                (if QString.isEmpty prefix then EmptyCatalog
                 else if dir_exists h dir
                      then if load_locale h locale base "_" abs
                           then LocaleCatalog locale base "_" abs
                           else if load_file h (prefix +:+ "en")
                                then FileCatalog (prefix +:+ "en")
                                else EmptyCatalog
                      else EmptyCatalog)).
Proof.
  intros Hhs w w' dir base abs.
  assert (Hinv : registry_inv hs w).
  { by apply install_all_inv, initial_world_inv. }
  destruct (installTranslator_chain h hs locale prefix parent_ w Hinv)
    as (Heq & Hinv1 & Hinv2 & Hinv3 & Hsw1 & Hsw2 & Hsw3).
  subst w'. rewrite Heq. clear Heq.
  set (w1 := exec (loadSingletonTranslator h _ BrandingSlot) w) in *.
  set (w2 := exec (loadSingletonTranslator h _ TzSlot) w1) in *.
  set (w3 := exec (loadSingletonTranslator h _ AppSlot) w2) in *.
  assert (Hs1 : get_slot BrandingSlot w1 = Some (fresh (dom (translators w)))).
  { by rewrite (sw_slots _ _ _ Hsw1), decide_True. }
  assert (Hs2 : get_slot TzSlot w2 = Some (fresh (dom (translators w1)))).
  { by rewrite (sw_slots _ _ _ Hsw2), decide_True. }
  assert (Hs3 : get_slot AppSlot w3 = Some (fresh (dom (translators w2)))).
  { by rewrite (sw_slots _ _ _ Hsw3), decide_True. }
  destruct (swapped_keeps hs TzSlot BrandingSlot
              (fresh (dom (translators w))) w1 w2 Hinv1 Hsw2)
    as (Hs12 & Hc12 & _); [done|exact Hs1|].
  destruct (swapped_keeps hs AppSlot BrandingSlot
              (fresh (dom (translators w))) w2 w3 Hinv2 Hsw3)
    as (Hs13 & Hc13 & _); [done|exact Hs12|].
  destruct (swapped_keeps hs AppSlot TzSlot
              (fresh (dom (translators w1))) w2 w3 Hinv2 Hsw3)
    as (Hs23 & Hc23 & _); [done|exact Hs2|].
  exists (fresh (dom (translators w))), (fresh (dom (translators w1))),
         (fresh (dom (translators w2))).
  split_and!; [exact Hs13|exact Hs23|exact Hs3|..].
  - change (translators w3 !! fresh (dom (translators w2)) = Some (mkQTranslator
      (if load_file h (":/lang/calamares_" +:+ mungeLocaleName locale)
       then FileCatalog (":/lang/calamares_" +:+ mungeLocaleName locale)
       else if load_file h ":/lang/calamares_en"
            then FileCatalog ":/lang/calamares_en" else EmptyCatalog))).
    subst w3. rewrite swap_new_contents by (intros p; apply Hinv2).
    apply CalamaresLoader_contents, alloc_lookup.
  - change (translators w3 !! fresh (dom (translators w1)) = Some (mkQTranslator
      (if load_file h (":/lang/tz_" +:+ mungeLocaleName locale)
       then FileCatalog (":/lang/tz_" +:+ mungeLocaleName locale)
       else if load_file h ":/lang/tz_en"
            then FileCatalog ":/lang/tz_en" else EmptyCatalog))).
    rewrite Hc23. subst w2. rewrite swap_new_contents by (intros p; apply Hinv1).
    apply TZLoader_contents, alloc_lookup.
  - transitivity (translators w3 !! fresh (dom (translators w))); [done|].
    rewrite Hc13, Hc12. subst w1.
    rewrite swap_new_contents by (intros p; apply Hinv).
    apply BrandingLoader_contents, alloc_lookup.
Qed.

Lemma installed_catalogs_witness :
  let w := exec (install_all en_only_host [(en_US, "", None)])
                (initial_world {[ 7 := mkQTranslator EmptyCatalog ]} [7] ∅) in
  let w' := exec (installTranslator en_only_host zz_ZZ "" None) w in
  ∃ ta, s_translator w' = Some ta
        ∧ translators w' !! ta
          = Some (mkQTranslator (FileCatalog ":/lang/calamares_en")).
Proof.
  intros w w'.
  destruct (installed_catalogs en_only_host
              {[ 7 := mkQTranslator EmptyCatalog ]} [7] ∅
              [(en_US, "", None)] zz_ZZ "" None)
    as (tb & tz & ta & _ & _ & Hta & Hca & _).
  { intros t ->%list_elem_of_singleton. by apply elem_of_dom. }
  exists ta. split; [exact Hta|exact Hca].
Defined.

Section StackOrder.

Lemma without_cons_ne old x l :
  old ≠ Some x → without old (x :: l) = x :: without old l.
Proof.
  destruct old as [p|]; simpl; [|done].
  intros Hne. rewrite filter_cons, decide_True; [done|congruence].
Qed.

Lemma without_all o1 o2 o3 l :
  (∀ x, x ∈ l → o1 = Some x ∨ o2 = Some x ∨ o3 = Some x) →
  without o3 (without o2 (without o1 l)) = [].
Proof.
  intros Hl.
  destruct (without o3 (without o2 (without o1 l))) as [|x k] eqn:Hk; [done|].
  assert (x ∈ without o3 (without o2 (without o1 l))) as Hx
    by (rewrite Hk; by left).
  apply elem_of_without in Hx as [Hx H3].
  apply elem_of_without in Hx as [Hx H2].
  apply elem_of_without in Hx as [Hx H1].
  by destruct (Hl x Hx) as [?|[?|?]].
Qed.

End StackOrder.

(** X7.  When [installTranslator] returns, after any earlier calls, the
    application's translator list is the translator of the application
    slot, then that of the timezone slot, then that of the branding slot,
    then the translators the host had installed itself: the three of the
    previous call are gone from the list, and the three are distinct. *)
Theorem installed_order
    (h : Host) (ht : gmap nat QTranslator) (hs : list TrId)
    (ho : gmap nat QObject) (calls : list (QLocale * string * option ObjId))
    (locale : QLocale) (prefix : string) (parent_ : option ObjId) :
  (∀ t, t ∈ hs → t ∈ dom ht) →
  let w := exec (install_all h calls) (initial_world ht hs ho) in
  let w' := exec (installTranslator h locale prefix parent_) w in
  ∃ tb tz ta,
    s_brandingTranslator w' = Some tb
    ∧ s_tztranslator w' = Some tz
    ∧ s_translator w' = Some ta
    ∧ app_translators w' = [ta; tz; tb] ++ hs
    ∧ NoDup [ta; tz; tb].
Proof.
  intros Hhs w w'.
  assert (Hinv : registry_inv hs w).
  { by apply install_all_inv, initial_world_inv. }
  destruct (installTranslator_chain h hs locale prefix parent_ w Hinv)
    as (Heq & Hinv1 & Hinv2 & Hinv3 & Hsw1 & Hsw2 & Hsw3).
  subst w'. rewrite Heq. clear Heq.
  set (w1 := exec (loadSingletonTranslator h _ BrandingSlot) w) in *.
  set (w2 := exec (loadSingletonTranslator h _ TzSlot) w1) in *.
  set (w3 := exec (loadSingletonTranslator h _ AppSlot) w2) in *.
  pose proof (fresh_translator_not_live w) as Hf1.
  pose proof (fresh_translator_not_live w1) as Hf2.
  pose proof (fresh_translator_not_live w2) as Hf3.
  set (t1 := fresh (dom (translators w))) in *.
  set (t2 := fresh (dom (translators w1))) in *.
  set (t3 := fresh (dom (translators w2))) in *.
  pose proof (sw_slots _ _ _ Hsw1) as S1.
  pose proof (sw_slots _ _ _ Hsw2) as S2.
  pose proof (sw_slots _ _ _ Hsw3) as S3.
  fold t1 in S1. fold t2 in S2. fold t3 in S3.
  assert (Hb : get_slot BrandingSlot w3 = Some t1).
  { by rewrite S3, decide_False, S2, decide_False, S1, decide_True. }
  assert (Hz : get_slot TzSlot w3 = Some t2).
  { by rewrite S3, decide_False, S2, decide_True. }
  assert (Ha : get_slot AppSlot w3 = Some t3).
  { by rewrite S3, decide_True. }
  assert (Hz1 : get_slot TzSlot w1 = get_slot TzSlot w).
  { by rewrite S1, decide_False. }
  assert (Ha2 : get_slot AppSlot w2 = get_slot AppSlot w).
  { by rewrite S2, decide_False, S1, decide_False. }
  assert (Hne12 : get_slot TzSlot w1 ≠ Some t1).
  { rewrite Hz1. intros Hs. apply Hf1. by eapply ri_live. }
  assert (Hne13 : get_slot AppSlot w2 ≠ Some t1).
  { rewrite Ha2. intros Hs. apply Hf1. by eapply ri_live. }
  assert (Hne23 : get_slot AppSlot w2 ≠ Some t2).
  { intros Hs. apply Hf2.
    eapply (ri_live _ _ Hinv1 AppSlot).
    rewrite <-Hs, S2, decide_False; done. }
  destruct (ri_stack _ _ Hinv) as (l & Hst & _ & Hl).
  assert (Hstack : app_translators w3 = [t3; t2; t1] ++ hs).
  { rewrite (sw_stack _ _ _ Hsw3), (sw_stack _ _ _ Hsw2), (sw_stack _ _ _ Hsw1).
    fold t1 t2 t3.
    rewrite (without_cons_ne (get_slot TzSlot w1)) by done.
    rewrite !(without_cons_ne (get_slot AppSlot w2)) by done.
    rewrite Hst, !without_app.
    - rewrite without_all; [done|].
      intros x [s Hs]%Hl. destruct s.
      + by left.
      + right; left. by rewrite Hz1.
      + right; right. by rewrite Ha2.
    - intros p Hp Hin. rewrite Ha2 in Hp. by eapply (ri_host_slots _ _ Hinv).
    - intros p Hp Hin. rewrite Hz1 in Hp. by eapply (ri_host_slots _ _ Hinv).
    - intros p Hp Hin. by eapply (ri_host_slots _ _ Hinv). }
  exists t1, t2, t3. split_and!; [exact Hb|exact Hz|exact Ha|exact Hstack|].
  destruct (ri_stack _ _ Hinv3) as (l3 & Hst3 & Hnd3 & _).
  rewrite Hstack in Hst3. apply app_inv_tail in Hst3. by subst l3.
Qed.

Lemma installed_order_witness :
  let w := exec (install_all en_only_host [(en_US, "", None)])
                (initial_world {[ 7 := mkQTranslator EmptyCatalog ]} [7] ∅) in
  let w' := exec (installTranslator en_only_host fr "" None) w in
  ∃ tb tz ta, app_translators w' = [ta; tz; tb] ++ [7].
Proof.
  intros w w'.
  destruct (installed_order en_only_host
              {[ 7 := mkQTranslator EmptyCatalog ]} [7] ∅
              [(en_US, "", None)] fr "" None)
    as (tb & tz & ta & _ & _ & _ & Hst & _).
  { intros t ->%list_elem_of_singleton. by apply elem_of_dom. }
  exists tb, tz, ta. exact Hst.
Defined.

Section NoLeak.

Variable h : Host.
Variable ht : gmap nat QTranslator.
Variable hs : list TrId.

(** Live translators are the host's and those of the slots; the swap keeps
    it so. *)
Lemma swapped_live slot w w' :
  registry_inv hs w → swapped slot w w' →
  (∀ x, x ∈ dom (translators w) ↔ x ∈ dom ht ∨ ∃ s, get_slot s w = Some x) →
  (∀ x, x ∈ dom ht → translators w !! x = ht !! x) →
  (∀ s x, get_slot s w = Some x → x ∉ dom ht) →
  (∀ x, x ∈ dom (translators w') ↔ x ∈ dom ht ∨ ∃ s, get_slot s w' = Some x)
  ∧ (∀ x, x ∈ dom ht → translators w' !! x = ht !! x)
  ∧ (∀ s x, get_slot s w' = Some x → x ∉ dom ht).
Proof.
  intros Hinv [Ss _ Snew Soth _ _ _] Hdom Hcont Hslots.
  pose proof (fresh_translator_not_live w) as Hfresh.
  set (t := fresh (dom (translators w))) in *.
  split_and!.
  - intros x. destruct (decide (x = t)) as [->|Hxt].
    + split; [|by intros _].
      intros _. right. exists slot. by rewrite Ss, decide_True.
    + rewrite elem_of_dom, Soth by done. case_decide as Hold.
      * split; [by intros [? ?]|].
        intros [Hx|[s Hs]]; exfalso; [by eapply Hslots|].
        rewrite Ss in Hs. case_decide as Hd; [congruence|].
        apply Hd. by eapply ri_inj.
      * rewrite <-elem_of_dom, Hdom.
        split; (intros [Hx|[s Hs]]; [by left|right]).
        -- exists s. rewrite Ss, decide_False; [done|]. intros ->. congruence.
        -- rewrite Ss in Hs. case_decide; [congruence|by eauto].
  - intros x Hx.
    assert (x ≠ t) by (intros ->; apply Hfresh, Hdom; by left).
    rewrite Soth, decide_False; [by apply Hcont| |done].
    intros Hs. by eapply Hslots.
  - intros s x. rewrite Ss. case_decide; [|by apply Hslots].
    intros [= <-] Hin. apply Hfresh, Hdom. by left.
Qed.

Lemma install_all_live calls : ∀ w,
  registry_inv hs w →
  (∀ x, x ∈ dom (translators w) ↔ x ∈ dom ht ∨ ∃ s, get_slot s w = Some x) →
  (∀ x, x ∈ dom ht → translators w !! x = ht !! x) →
  (∀ s x, get_slot s w = Some x → x ∉ dom ht) →
  (∀ x, x ∈ dom (translators (exec (install_all h calls) w))
        ↔ x ∈ dom ht ∨ ∃ s, get_slot s (exec (install_all h calls) w) = Some x)
  ∧ (∀ x, x ∈ dom ht →
          translators (exec (install_all h calls) w) !! x = ht !! x).
Proof.
  induction calls as [|[[locale prefix] parent_] calls IH];
    intros w Hinv Hdom Hcont Hslots; [done|].
  simpl. rewrite exec_bind.
  destruct (installTranslator_chain h hs locale prefix parent_ w Hinv)
    as (Heq & Hinv1 & Hinv2 & Hinv3 & Hsw1 & Hsw2 & Hsw3).
  destruct (swapped_live _ _ _ Hinv Hsw1 Hdom Hcont Hslots) as (D1 & C1 & L1).
  destruct (swapped_live _ _ _ Hinv1 Hsw2 D1 C1 L1) as (D2 & C2 & L2).
  destruct (swapped_live _ _ _ Hinv2 Hsw3 D2 C2 L2) as (D3 & C3 & L3).
  apply IH.
  - by apply installTranslator_inv.
  - by rewrite Heq.
  - by rewrite Heq.
  - by rewrite Heq.
Qed.

End NoLeak.

(** X8.  No translator is leaked and none of the host's is touched: after
    any sequence of [installTranslator] calls the live translators are
    exactly those the host owned at the start and those the three slots
    point to, and the host's translators hold what they held at the
    start. *)
Theorem install_no_leak
    (h : Host) (ht : gmap nat QTranslator) (hs : list TrId)
    (ho : gmap nat QObject) (calls : list (QLocale * string * option ObjId)) :
  (∀ t, t ∈ hs → t ∈ dom ht) →
  let w := exec (install_all h calls) (initial_world ht hs ho) in
  (∀ x, x ∈ dom (translators w) ↔ x ∈ dom ht ∨ ∃ s, get_slot s w = Some x)
  ∧ (∀ x, x ∈ dom ht → translators w !! x = ht !! x).
Proof.
  intros Hhs w. apply (install_all_live h ht hs).
  - by apply initial_world_inv.
  - intros x. simpl. split; [by left|]. by intros [?|[[] ?]].
  - done.
  - by intros [].
Qed.

Lemma install_no_leak_witness :
  let w := exec (install_all en_only_host
                   [(en_US, "", None); (fr, "/usr/share/branding/", None)])
                (initial_world {[ 7 := mkQTranslator EmptyCatalog ]} [7] ∅) in
  translators w !! 7 = Some (mkQTranslator EmptyCatalog).
Proof.
  intros w.
  refine (proj2 (install_no_leak en_only_host
                   {[ 7 := mkQTranslator EmptyCatalog ]} [7] ∅
                   [(en_US, "", None); (fr, "/usr/share/branding/", None)] _)
                7 _).
  - intros t ->%list_elem_of_singleton. by apply elem_of_dom.
  - by apply elem_of_dom.
Defined.

(** * The two halves do not interfere *)

Section Frames.


Lemma call_all_frame fs w :
  translators (call_all fs w) = translators w
  ∧ app_translators (call_all fs w) = app_translators w
  ∧ ∀ s, get_slot s (call_all fs w) = get_slot s w.
Proof.
  revert w; induction fs as [|f fs IH]; intros w; [done|].
  unfold call_all in *. cbn [foldl].
  destruct (IH (emit (EvCall f) w)) as (-> & -> & Hs).
  split_and!; [done..|]. intros s. rewrite Hs. by destruct s.
Qed.

Lemma retranslatorFor_frame P w r w1 :
  retranslatorFor P w = Some (r, w1) →
  translators w1 = translators w
  ∧ app_translators w1 = app_translators w
  ∧ (∀ s, get_slot s w1 = get_slot s w)
  ∧ (∀ x, is_Some (objects w !! x) → is_Some (objects w1 !! x)).
Proof.
  unfold retranslatorFor.
  destruct (objects w !! P) as [p|] eqn:HP; [|done].
  destruct (first_Retranslator w (children p)) as [r'|].
  - by intros [= -> <-].
  - intros Heq.
    assert (r = fresh (dom (objects w)) ∧ w1 = snd (Retranslator_new P w))
      as [-> ->] by (by injection Heq as <- <-).
    split_and!; [done|done|by intros []|].
    intros x Hx. destruct (decide (x = P)) as [->|HxP].
    + by rewrite (new_lookup_P w P p HP).
    + rewrite new_lookup_other; [done| |done].
      intros ->. rewrite fresh_object_not_live in Hx. by destruct Hx.
Qed.

Lemma hub_call_frame c w w' :
  hub_call c w = Some w' →
  translators w' = translators w
  ∧ app_translators w' = app_translators w
  ∧ (∀ s, get_slot s w' = get_slot s w)
  ∧ (∀ x, is_Some (objects w !! x) → is_Some (objects w' !! x)).
Proof.
  destruct c as [P|P f|this obj e]; simpl.
  - destruct (retranslatorFor P w) as [[r w1]|] eqn:Hrf; [|done].
    intros [= <-]. by eapply retranslatorFor_frame.
  - unfold attachRetranslator.
    destruct (retranslatorFor P w) as [[r w1]|] eqn:Hrf; [|done].
    intros [= <-].
    destruct (retranslatorFor_frame P w r w1 Hrf) as (Ht & Ha & Hs & Ho).
    split_and!; [done|done| |].
    + intros s. rewrite <-Hs. by destruct s.
    + intros x Hx. simpl. rewrite lookup_alter.
      case_decide; [subst; by apply fmap_is_Some, Ho|by apply Ho].
  - unfold eventFilter.
    destruct (objects w !! this) as [o|]; [|done].
    destruct (kind o) as [|fs]; [done|].
    intros [= <-]. repeat case_bool_decide; try done.
    destruct (call_all_frame fs w) as (Ht & Ha & Hs).
    destruct (call_all_trace fs w) as (_ & Ho & _).
    split_and!; [done|done| |].
    + intros s. rewrite <-Hs. by destruct s.
    + intros x. simpl. by rewrite Ho.
Qed.

End Frames.


(** X10.  The hub half never touches the registry: any sequence of calls of
    [retranslatorFor], [attachRetranslator] and [eventFilter] leaves the
    live translators, the application's translator list and the three
    slots as they were; and it destroys no QObject. *)
Theorem hub_leaves_registry_alone (cs : list HubCall) (w w' : World) :
  hub_calls cs w = Some w' →
  translators w' = translators w
  ∧ app_translators w' = app_translators w
  ∧ (∀ s, get_slot s w' = get_slot s w)
  ∧ (∀ x, is_Some (objects w !! x) → is_Some (objects w' !! x)).
Proof.
  revert w; induction cs as [|c cs IH]; intros w; simpl.
  - by intros [= ->].
  - destruct (hub_call c w) as [w1|] eqn:Hc; [|done].
    intros Hcs. destruct (IH _ Hcs) as (Ht & Ha & Hs & Ho).
    destruct (hub_call_frame c w w1 Hc) as (Ht1 & Ha1 & Hs1 & Ho1).
    split_and!; [congruence|congruence| |by auto].
    intros s. by rewrite Hs, Hs1.
Qed.

Lemma hub_leaves_registry_alone_witness :
  ∃ w', hub_calls [CallAttach 0 "A"; CallEventFilter 1 0 LanguageChange]
                  widget_world = Some w'
        ∧ app_translators w' = [] ∧ s_translator w' = None.
Proof.
  destruct (hub_calls [CallAttach 0 "A"; CallEventFilter 1 0 LanguageChange]
                      widget_world) as [w'|] eqn:Hcs.
  - exists w'. split; [done|].
    destruct (hub_leaves_registry_alone _ _ _ Hcs) as (_ & Ha & Hs & _).
    split; [exact Ha|exact (Hs AppSlot)].
  - vm_compute in Hcs. discriminate Hcs.
Defined.

(** * Further properties of the hub *)

Section MoreHubFacts.

Lemma cast_ext w w' c :
  objects w' = objects w →
  qobject_cast_Retranslator w' c = qobject_cast_Retranslator w c.
Proof. intros Ho. unfold qobject_cast_Retranslator. by rewrite Ho. Qed.

Lemma retranslators_in_ext w w' cs :
  (∀ c, c ∈ cs → qobject_cast_Retranslator w' c = qobject_cast_Retranslator w c) →
  retranslators_in w' cs = retranslators_in w cs.
Proof.
  intros Hc. apply list_omap_ext, Forall2_same_length_lookup.
  split; [done|]. intros i x y Hx Hy. assert (x = y) as <- by congruence.
  apply Hc. by eapply list_elem_of_lookup_2.
Qed.

Lemma hub_inv_ext w w' :
  objects w' = objects w → hub_inv w → hub_inv w'.
Proof.
  intros Ho [Hch Hone]. split.
  - intros q o c. rewrite Ho. apply Hch.
  - intros q o Hq. rewrite Ho in Hq.
    rewrite (retranslators_in_ext w w'); [by eapply Hone|].
    intros c _. by apply cast_ext.
Qed.

Lemma eventFilter_objects this obj e w b w' :
  eventFilter this obj e w = Some (b, w') → objects w' = objects w.
Proof.
  unfold eventFilter.
  destruct (objects w !! this) as [o|]; [|done].
  destruct (kind o) as [|fs]; [done|].
  intros [= <- <-]. repeat case_bool_decide; try done.
  simpl. apply call_all_trace.
Qed.

Lemma hub_call_inv c w w' :
  hub_call c w = Some w' → hub_inv w → hub_inv w'.
Proof.
  destruct c as [P|P f|this obj e]; simpl.
  - destruct (retranslatorFor P w) as [[r w1]|] eqn:Hrf; [|done].
    intros [= <-] Hinv.
    destruct (objects w !! P) as [p|] eqn:HP.
    + by destruct (retranslatorFor_hub_inv w P p r w1 HP Hrf Hinv).
    + unfold retranslatorFor in Hrf. by rewrite HP in Hrf.
  - unfold attachRetranslator.
    destruct (retranslatorFor P w) as [[r w1]|] eqn:Hrf; [|done].
    intros [= <-] Hinv.
    destruct (objects w !! P) as [p|] eqn:HP.
    + destruct (retranslatorFor_hub_inv w P p r w1 HP Hrf Hinv) as [Hinv1 _].
      apply append_hub_inv; [|done].
      by destruct (retranslatorFor_trace w P r w1 Hrf) as (_ & _ & ? & _).
    + unfold retranslatorFor in Hrf. by rewrite HP in Hrf.
  - destruct (eventFilter this obj e w) as [[b w1]|] eqn:Hev; [|done].
    intros [= <-]. apply hub_inv_ext. by eapply eventFilter_objects.
Qed.

End MoreHubFacts.

(** X11.  The hub keeps the object graph well formed: when every child is
    a live object that names its parent and no object has two
    Retranslators among its children, the same holds after any sequence of
    calls of [retranslatorFor], [attachRetranslator] and [eventFilter]. *)
Theorem hub_calls_keep_graph (cs : list HubCall) (w w' : World) :
  hub_inv w → hub_calls cs w = Some w' → hub_inv w'.
Proof.
  revert w; induction cs as [|c cs IH]; intros w Hinv; simpl.
  - by intros [= <-].
  - destruct (hub_call c w) as [w1|] eqn:Hc; [|done].
    apply IH. by eapply hub_call_inv.
Qed.

Lemma widget_world_hub_inv : hub_inv widget_world.
Proof.
  split.
  - intros q o c Hq Hc. destruct (decide (q = 0)) as [->|Hne].
    + simpl in Hq. rewrite lookup_singleton_eq in Hq. injection Hq as <-.
      by apply elem_of_nil in Hc.
    + simpl in Hq. by rewrite lookup_singleton_ne in Hq.
  - intros q o Hq. destruct (decide (q = 0)) as [->|Hne].
    + simpl in Hq. rewrite lookup_singleton_eq in Hq. injection Hq as <-.
      simpl. lia.
    + simpl in Hq. by rewrite lookup_singleton_ne in Hq.
Defined.

Lemma hub_calls_keep_graph_witness :
  ∃ w', hub_calls [CallAttach 0 "A"; CallRetranslatorFor 1; CallAttach 0 "B"]
                  widget_world = Some w'
        ∧ hub_inv w'.
Proof.
  destruct (hub_calls [CallAttach 0 "A"; CallRetranslatorFor 1; CallAttach 0 "B"]
                      widget_world) as [w'|] eqn:Hcs.
  - exists w'. split; [done|].
    exact (hub_calls_keep_graph _ _ _ widget_world_hub_inv Hcs).
  - vm_compute in Hcs. discriminate Hcs.
Defined.

Section Filters.

(** A step of the hub keeps every Retranslator child among the event
    filters of its parent. *)
Lemma hub_call_filters c w w' :
  hub_call c w = Some w' → hub_inv w →
  (∀ q o r, objects w !! q = Some o → r ∈ children o →
            qobject_cast_Retranslator w r = Some r → r ∈ eventFilters o) →
  (∀ q o r, objects w' !! q = Some o → r ∈ children o →
            qobject_cast_Retranslator w' r = Some r → r ∈ eventFilters o).
Proof.
  intros Hc Hinv Hfilt.
  assert (Hnew : ∀ P p, objects w !! P = Some p →
    first_Retranslator w (children p) = None →
    ∀ q o r, objects (snd (Retranslator_new P w)) !! q = Some o →
             r ∈ children o →
             qobject_cast_Retranslator (snd (Retranslator_new P w)) r = Some r →
             r ∈ eventFilters o).
  { intros P p HP Hnone q o r Hq Hr Hcast.
    pose proof (fresh_object_not_live w) as Hfresh.
    destruct (decide (q = fresh (dom (objects w)))) as [->|Hqr].
    { rewrite (new_lookup_r w P p HP) in Hq. injection Hq as <-.
      by apply elem_of_nil in Hr. }
    destruct (decide (q = P)) as [->|HqP].
    - rewrite (new_lookup_P w P p HP) in Hq. injection Hq as <-. simpl in *.
      apply elem_of_app in Hr as [Hr|Hr%list_elem_of_singleton];
        [|subst r; by left].
      destruct (decide (r = fresh (dom (objects w)))) as [->|Hne]; [by left|].
      right. apply list_elem_of_filter. split; [done|].
      apply (Hfilt P p r HP Hr).
      by rewrite <-(new_cast_other w P p HP r Hne).
    - rewrite new_lookup_other in Hq by done.
      destruct (hi_children w Hinv q o r Hq Hr) as (co & Hco & _).
      assert (r ≠ fresh (dom (objects w))) as Hne by (intros ->; congruence).
      apply (Hfilt q o r Hq Hr).
      by rewrite <-(new_cast_other w P p HP r Hne). }
  assert (Hrf : ∀ P r0 w1, retranslatorFor P w = Some (r0, w1) →
    ∀ q o r, objects w1 !! q = Some o → r ∈ children o →
             qobject_cast_Retranslator w1 r = Some r → r ∈ eventFilters o).
  { intros P r0 w1. unfold retranslatorFor.
    destruct (objects w !! P) as [p|] eqn:HP; [|done].
    destruct (first_Retranslator w (children p)) as [r'|] eqn:Hf.
    - intros [= _ <-]. exact Hfilt.
    - intros Heq.
      assert (w1 = snd (Retranslator_new P w)) as -> by (by injection Heq).
      by apply (Hnew P p). }
  destruct c as [P|P f|this obj e]; simpl in Hc.
  - destruct (retranslatorFor P w) as [[r0 w1]|] eqn:Heq; [|done].
    injection Hc as <-. by eapply Hrf.
  - unfold attachRetranslator in Hc.
    destruct (retranslatorFor P w) as [[r0 w1]|] eqn:Heq; [|done].
    injection Hc as <-.
    destruct (retranslatorFor_trace w P r0 w1 Heq) as (_ & _ & Hcast0 & _).
    intros q o r.
    rewrite (append_lookup w1 r0 f Hcast0), (append_cast w1 r0 f Hcast0).
    destruct (objects w1 !! q) as [oq|] eqn:Hq; [|done].
    intros [= <-] Hr Hcast.
    assert (r ∈ eventFilters oq) as Hin.
    { apply (Hrf P r0 w1 Heq q oq r Hq); [|done].
      revert Hr. case_decide; [|done].
      by destruct (append_func_fields f oq) as (_ & -> & _). }
    clear Hr. case_decide; [|done].
    by destruct (append_func_fields f oq) as (_ & _ & ->).
  - destruct (eventFilter this obj e w) as [[b w1]|] eqn:Hev; [|done].
    injection Hc as <-.
    pose proof (eventFilter_objects _ _ _ _ _ _ Hev) as Ho.
    intros q o r. rewrite Ho, (cast_ext w w1 r Ho). apply Hfilt.
Qed.

End Filters.

(** X12.  Every Retranslator listens to its parent.  In a well-formed graph
    in which each Retranslator child is among the event filters of its
    parent (in particular in a graph that has no Retranslator yet), the
    same holds after any sequence of calls of [retranslatorFor],
    [attachRetranslator] and [eventFilter]: the constructor installs the
    filter, and nothing removes it. *)
Theorem retranslators_are_filters (cs : list HubCall) (w w' : World) :
  hub_inv w →
  (∀ q o r, objects w !! q = Some o → r ∈ children o →
            qobject_cast_Retranslator w r = Some r → r ∈ eventFilters o) →
  hub_calls cs w = Some w' →
  ∀ q o r, objects w' !! q = Some o → r ∈ children o →
           qobject_cast_Retranslator w' r = Some r → r ∈ eventFilters o.
Proof.
  revert w; induction cs as [|c cs IH]; intros w Hinv Hfilt; simpl.
  - by intros [= <-].
  - destruct (hub_call c w) as [w1|] eqn:Hc; [|done].
    apply IH; [by eapply hub_call_inv|by eapply hub_call_filters].
Qed.

Lemma retranslators_are_filters_witness :
  ∃ w' o, hub_calls [CallAttach 0 "A"; CallAttach 0 "B"] widget_world = Some w'
          ∧ objects w' !! 0 = Some o ∧ 1 ∈ eventFilters o.
Proof.
  destruct (hub_calls [CallAttach 0 "A"; CallAttach 0 "B"] widget_world)
    as [w'|] eqn:Hcs; [|vm_compute in Hcs; discriminate Hcs].
  pose proof Hcs as Hw. vm_compute in Hw. injection Hw as Hw.
  assert (Ho : ∃ o, objects w' !! 0 = Some o ∧ 1 ∈ children o
                    ∧ qobject_cast_Retranslator w' 1 = Some 1).
  { rewrite <-Hw. eexists. split; [vm_compute; reflexivity|].
    split; [by left|reflexivity]. }
  destruct Ho as (o & Ho & Hin & Hcast).
  exists w', o. split; [done|]. split; [exact Ho|].
  refine (retranslators_are_filters _ widget_world w' widget_world_hub_inv _
            Hcs 0 o 1 Ho Hin Hcast).
  intros q o' r Hq Hr. destruct (decide (q = 0)) as [->|Hne].
  - simpl in Hq. rewrite lookup_singleton_eq in Hq. injection Hq as <-.
    by apply elem_of_nil in Hr.
  - simpl in Hq. by rewrite lookup_singleton_ne in Hq.
Defined.

Section OtherParent.

Lemma new_funcs_other w P p x :
  objects w !! P = Some p → x ≠ fresh (dom (objects w)) →
  funcs_of (snd (Retranslator_new P w)) x = funcs_of w x.
Proof.
  intros HP Hx. unfold funcs_of.
  destruct (decide (x = P)) as [->|HxP].
  - by rewrite (new_lookup_P w P p HP), HP.
  - by rewrite new_lookup_other.
Qed.

Lemma first_Retranslator_ext w w' cs :
  (∀ c, c ∈ cs → qobject_cast_Retranslator w' c = qobject_cast_Retranslator w c) →
  first_Retranslator w' cs = first_Retranslator w cs.
Proof.
  intros Hc. rewrite !first_Retranslator_head.
  by rewrite (retranslators_in_ext w w').
Qed.

(** Finding or making the Retranslator of [Q] does not disturb the one of
    another parent [P]. *)
Lemma retranslatorFor_other w P Q rP rQ w1 :
  hub_inv w → P ≠ Q →
  retranslatorFor P w = Some (rP, w) →
  retranslatorFor Q w = Some (rQ, w1) →
  retranslatorFor P w1 = Some (rP, w1)
  ∧ funcs_of w1 rP = funcs_of w rP
  ∧ rP ≠ rQ.
Proof.
  intros Hinv HPQ HrP HrQ.
  destruct (retranslatorFor_fix w P rP HrP) as (p & HP & HfP).
  destruct (first_Retranslator_Some w (children p) rP HfP) as [HinP HcastP].
  destruct (hi_children w Hinv P p rP HP HinP) as (oP & HoP & HparP).
  unfold retranslatorFor in HrQ.
  destruct (objects w !! Q) as [q|] eqn:HQ; [|done].
  destruct (first_Retranslator w (children q)) as [r'|] eqn:HfQ.
  - injection HrQ as -> <-. split_and!; [done..|].
    destruct (first_Retranslator_Some w (children q) rQ HfQ) as [HinQ _].
    destruct (hi_children w Hinv Q q rQ HQ HinQ) as (oQ & HoQ & HparQ).
    intros ->. congruence.
  - assert (rQ = fresh (dom (objects w)) ∧ w1 = snd (Retranslator_new Q w))
      as [-> ->] by (by injection HrQ as <- <-).
    pose proof (fresh_object_not_live w) as Hfresh.
    assert (HrP_ne : rP ≠ fresh (dom (objects w))) by (intros ->; congruence).
    assert (HP_ne : P ≠ fresh (dom (objects w))) by (intros ->; congruence).
    split_and!; [|by eapply new_funcs_other|done].
    eapply retranslatorFor_found.
    + by rewrite new_lookup_other.
    + rewrite (first_Retranslator_ext w); [done|].
      intros c Hc. eapply new_cast_other; [done|].
      destruct (hi_children w Hinv P p c HP Hc) as (co & Hco & _).
      intros ->. congruence.
Qed.

Lemma append_retranslatorFor_any w1 r f P r0 :
  qobject_cast_Retranslator w1 r = Some r →
  retranslatorFor P w1 = Some (r0, w1) →
  retranslatorFor P
    (emit (EvCall f) (set_objects (alter (append_func f) r) w1))
  = Some (r0, emit (EvCall f) (set_objects (alter (append_func f) r) w1)).
Proof.
  intros Hr Hrf.
  destruct (retranslatorFor_fix w1 P r0 Hrf) as (p & HP & Hf).
  eapply retranslatorFor_found.
  - rewrite (append_lookup w1 r f Hr), HP. reflexivity.
  - rewrite (append_first w1 r f Hr).
    replace (children ((if decide (r = P) then append_func f else id) p))
      with (children p); [done|].
    case_decide; [|done]. by destruct (append_func_fields f p) as (_ & -> & _).
Qed.

End OtherParent.

(** X13.  Parents do not share callbacks.  In a well-formed graph, when
    [P] already has its Retranslator and [Q] is another live object,
    attaching a callback to [Q] leaves the Retranslator of [P] and its
    callback list as they were, so a LanguageChange delivered to [P]
    afterwards runs the callbacks of [P] only, then emits
    [languageChange]. *)
Theorem attach_other_parent
    (w : World) (P Q : ObjId) (q : QObject) (rP : ObjId) (f : Callback) :
  hub_inv w → P ≠ Q →
  retranslatorFor P w = Some (rP, w) →
  objects w !! Q = Some q →
  ∃ w' w'',
    attachRetranslator Q f w = Some w'
    ∧ retranslatorFor P w' = Some (rP, w')
    ∧ funcs_of w' rP = funcs_of w rP
    ∧ eventFilter rP P LanguageChange w' = Some (false, w'')
    ∧ trace w'' = trace w' ++ (EvCall <$> funcs_of w rP) ++ [EvEmit rP].
Proof.
  intros Hinv HPQ HrP HQ.
  destruct (attach_spec w Q q f HQ)
    as (rQ & w1 & w' & HrQ & Hat & Hw' & _ & _ & _ & HcastQ).
  destruct (retranslatorFor_other w P Q rP rQ w1 Hinv HPQ HrP HrQ)
    as (HrP1 & Hfs1 & Hne).
  destruct (retranslatorFor_hub_inv w Q q rQ w1 HQ HrQ Hinv) as [Hinv1 _].
  assert (Hinv' : hub_inv w') by (rewrite Hw'; by apply append_hub_inv).
  assert (HrP' : retranslatorFor P w' = Some (rP, w')).
  { rewrite Hw'. by apply append_retranslatorFor_any. }
  assert (Hfs' : funcs_of w' rP = funcs_of w rP).
  { rewrite <-Hfs1, Hw'. unfold funcs_of.
    rewrite (append_lookup w1 rQ f HcastQ), decide_False by done.
    by destruct (objects w1 !! rP). }
  destruct (retranslatorFor_fix w' P rP HrP') as (p' & HP' & Hf').
  destruct (first_Retranslator_Some w' (children p') rP Hf') as [Hin' Hcast'].
  destruct (hi_children w' Hinv' P p' rP HP' Hin') as (ro & Hro & Hpar).
  assert (Hk : kind ro = RetranslatorObject (funcs_of w' rP)).
  { apply cast_Some in Hcast' as [_ (o & fs' & Ho & Hk)].
    unfold funcs_of. rewrite Ho, Hk.
    rewrite Ho in Hro. by injection Hro as <-. }
  exists w'. eexists. split_and!; [done..| |].
  - rewrite (eventFilter_spec w' rP ro _ P LanguageChange Hro Hk).
    rewrite !bool_decide_eq_true_2 by done. reflexivity.
  - simpl. destruct (call_all_trace (funcs_of w' rP) w') as (-> & _ & _).
    by rewrite Hfs', <-app_assoc.
Qed.

Lemma two_widget_world_hub_inv : hub_inv two_widget_world.
Proof.
  assert (Hlook : ∀ q o, objects two_widget_world !! q = Some o →
                         o = mkQObject None [] [] PlainQObject).
  { intros q o. simpl. rewrite lookup_insert. case_decide; [congruence|].
    rewrite lookup_singleton. case_decide; [congruence|done]. }
  split.
  - intros q o c Hq Hc. rewrite (Hlook q o Hq) in Hc.
    by apply elem_of_nil in Hc.
  - intros q o Hq. rewrite (Hlook q o Hq). simpl. lia.
Qed.

Lemma attach_other_parent_witness :
  ∃ w w' w'',
    attachRetranslator 0 "A" two_widget_world = Some w
    ∧ attachRetranslator 1 "B" w = Some w'
    ∧ eventFilter 2 0 LanguageChange w' = Some (false, w'')
    ∧ trace w'' = [EvCall "A"; EvCall "B"; EvCall "A"; EvEmit 2].
Proof.
  destruct (attachRetranslator 0 "A" two_widget_world) as [w|] eqn:Hw;
    [|vm_compute in Hw; discriminate Hw].
  assert (Hinv : hub_inv w).
  { apply (hub_call_inv (CallAttach 0 "A") two_widget_world w Hw).
    apply two_widget_world_hub_inv. }
  pose proof Hw as Hwc. vm_compute in Hwc. injection Hwc as Hwc.
  assert (HrP : retranslatorFor 0 w = Some (2, w)).
  { rewrite <-Hwc. vm_compute. reflexivity. }
  assert (Hq : ∃ q, objects w !! 1 = Some q).
  { rewrite <-Hwc. eexists. vm_compute. reflexivity. }
  destruct Hq as [q Hq].
  destruct (attach_other_parent w 0 1 q 2 "B" Hinv) as
    (w' & w'' & Hat & _ & Hfs & Hev & Htr); [done|exact HrP|exact Hq|].
  exists w, w', w''. split_and!; [done|exact Hat|exact Hev|].
  pose proof Hat as Hwc'. rewrite <-Hwc in Hwc'. vm_compute in Hwc'.
  injection Hwc' as Hwc'.
  rewrite Htr, <-Hwc', <-Hwc. reflexivity.
Defined.

(** * Compositions *)

Section Repeat.

(** One LanguageChange delivered to the parent of a Retranslator. *)
Lemma dispatch_once w this o fs P :
  objects w !! this = Some o → kind o = RetranslatorObject fs →
  parent o = Some P →
  ∃ w', hub_call (CallEventFilter this P LanguageChange) w = Some w'
        ∧ objects w' = objects w
        ∧ trace w' = trace w ++ (EvCall <$> fs) ++ [EvEmit this].
Proof.
  intros Ho Hk Hpar. simpl.
  rewrite (eventFilter_spec w this o fs P LanguageChange Ho Hk).
  rewrite !bool_decide_eq_true_2 by done.
  eexists. split; [reflexivity|].
  destruct (call_all_trace fs w) as (Htr & Hob & _).
  split; [exact Hob|].
  cbn [andb snd trace emit]. rewrite Htr. by rewrite <-app_assoc.
Qed.

End Repeat.

(** X14.  Callbacks stay registered: a dispatch does not change the
    callback list, so [n] LanguageChange events delivered one after the
    other to the parent of a Retranslator run its callbacks [n] times, each
    round in list order and closed by one [languageChange]. *)
Theorem dispatch_repeats
    (n : nat) (w : World) (this : ObjId) (o : QObject)
    (fs : list Callback) (P : ObjId) :
  objects w !! this = Some o → kind o = RetranslatorObject fs →
  parent o = Some P →
  ∃ w', hub_calls (replicate n (CallEventFilter this P LanguageChange)) w
        = Some w'
        ∧ objects w' = objects w
        ∧ trace w'
          = trace w
            ++ concat (replicate n ((EvCall <$> fs) ++ [EvEmit this])).
Proof.
  intros Ho Hk Hpar. revert w Ho.
  induction n as [|n IH]; intros w Ho.
  - exists w. simpl. by rewrite app_nil_r.
  - destruct (dispatch_once w this o fs P Ho Hk Hpar) as (w1 & Hc & Hob & Htr).
    destruct (IH w1) as (w' & Hcs & Hob' & Htr'); [by rewrite Hob|].
    exists w'. cbn [replicate hub_calls]. rewrite Hc.
    split_and!; [done|congruence|].
    rewrite Htr', Htr. cbn [concat]. by rewrite <-!app_assoc.
Qed.

Lemma dispatch_repeats_witness :
  ∃ wa w',
    attachRetranslator 0 "A" widget_world = Some wa
    ∧ hub_calls (replicate 2 (CallEventFilter 1 0 LanguageChange)) wa = Some w'
    ∧ trace w' = [EvCall "A"; EvCall "A"; EvEmit 1; EvCall "A"; EvEmit 1].
Proof.
  destruct (attachRetranslator 0 "A" widget_world) as [wa|] eqn:Hwa;
    [|vm_compute in Hwa; discriminate Hwa].
  pose proof Hwa as Hc. vm_compute in Hc. injection Hc as Hc.
  destruct (dispatch_repeats 2 wa 1
              (mkQObject (Some 0) [] [] (RetranslatorObject ["A"])) ["A"] 0)
    as (w' & Hcs & _ & Htr).
  - rewrite <-Hc. vm_compute. reflexivity.
  - reflexivity.
  - reflexivity.
  - exists wa, w'. split_and!; [done|exact Hcs|].
    rewrite Htr, <-Hc. reflexivity.
Defined.

(** X15.  The last [installTranslator] wins: after any sequence of calls
    that ends with one for the locale [L], [translatorLocaleName()] is the
    munged name of [L], whatever the earlier calls were. *)
Theorem translatorLocaleName_last_install
    (h : Host) (calls : list (QLocale * string * option ObjId))
    (locale : QLocale) (prefix : string) (parent_ : option ObjId) (w : World) :
  eval translatorLocaleName
       (exec (install_all h (calls ++ [(locale, prefix, parent_)])) w)
  = mungeLocaleName locale.
Proof.
  rewrite install_all_app. simpl. rewrite exec_bind.
  by rewrite installTranslator_eq.
Qed.

(** X16.  [tryLoad] changes nothing but the translator it is given and the
    trace: for each of the three loaders the application's translator
    list, the slots, the locale name, the QObjects, the set of live
    translators and the contents of every other translator are as before,
    and the events it adds are load attempts, directory tests and debug
    output only. *)
Theorem tryLoad_touches_its_translator_only
    (h : Host) (loader : Loader) (t : TrId) (w : World) :
  let w' := snd (tryLoad h loader t w) in
  app_translators w' = app_translators w
  ∧ (∀ s, get_slot s w' = get_slot s w)
  ∧ s_translatorLocaleName w' = s_translatorLocaleName w
  ∧ objects w' = objects w
  ∧ dom (translators w') = dom (translators w)
  ∧ (∀ x, x ≠ t → translators w' !! x = translators w !! x)
  ∧ ∃ evs, trace w' = trace w ++ evs
           ∧ Forall (λ e, is_load_event e = true) evs.
Proof.
  intros w'.
  destruct (tryLoad_step h loader t w) as [Hst Hob Hsl Hnm Hdom Hoth Htr].
  by split_and!.
Qed.
